(** * Access service of invenio-rdm-records: secret links, grants, access requests

    Shallow embedding of [invenio_rdm_records/services/access/service.py]
    (class [RecordAccessService]).  Python objects that the service mutates
    (the parent's link and grant sequences, the unit of work, the token table,
    the request table) live in one explicit store, [world]; every service
    method is a computation in a state-and-exception monad over that store.
    An exception leaves the store as it was when the exception was raised, so
    that what has (not) been mutated before a failure can be stated. *)

From stdpp Require Import base option list strings gmap pretty.
From Stdlib Require Import ZArith Lia.

Local Open Scope Z_scope.

(** ** Exceptions raised by the service and by its collaborators *)

Inductive exn : Type :=
| ValidationError (message field_name : string)
| PermissionDeniedError (action : option string)
| LookupError (key : string)
| IndexError
| KeyError (key : string)
| TypeError
| NoResultFound
| PIDDoesNotExistError
| InvalidPermissionLevelError (level : string)
| DuplicateAccessRequestError (request_ids : list string).

(** [except LookupError] also catches its subclasses [IndexError] and [KeyError]. *)
Definition is_LookupError (e : exn) : bool :=
  match e with
  | LookupError _ | IndexError | KeyError _ => true
  | _ => false
  end.

(** ** Python sequences addressed by a (possibly negative) integer *)

Module PyList.
Section Ops.
Context {A : Type}.

(** Position denoted by index [i] in a list of length [n], as [list.__getitem__],
    [list.__setitem__] and [list.pop] compute it: negative indices count from the end. *)
Definition position (n : nat) (i : Z) : option nat :=
  if (0 <=? i) && (i <? Z.of_nat n) then Some (Z.to_nat i)
  else if (- Z.of_nat n <=? i) && (i <? 0) then Some (Z.to_nat (Z.of_nat n + i))
  else None.

Definition getitem (l : list A) (i : Z) : exn + A :=
  match position (length l) i with
  | Some k => match l !! k with Some x => inr x | None => inl IndexError end
  | None => inl IndexError
  end.

Definition setitem (l : list A) (i : Z) (x : A) : exn + list A :=
  match position (length l) i with
  | Some k => inr (<[k := x]> l)
  | None => inl IndexError
  end.

Definition pop (l : list A) (i : Z) : exn + (A * list A) :=
  match position (length l) i with
  | Some k => match l !! k with
              | Some x => inr (x, delete k l)
              | None => inl IndexError
              end
  | None => inl IndexError
  end.
End Ops.
End PyList.

(** ** Datetimes

    A [datetime] is its wall-clock reading in microseconds together with the
    UTC offset of its [tzinfo], if it has one (a naive datetime has none). *)

Record datetime : Type := mk_datetime { wall : Z; utcoffset : option Z }.

Definition naive (t : Z) : datetime := {| wall := t; utcoffset := None |}.

(** [arrow.get(d).to("utc").datetime.replace(tzinfo=None)]: a naive value is
    read as UTC, an aware one is shifted by its offset; the result is naive. *)
Definition to_utc_naive (d : datetime) : datetime :=
  naive (wall d - default 0 (utcoffset d)).

(** Ordering of datetimes: naive with naive, aware with aware; mixing the two
    raises [TypeError]. *)
Definition dt_lt (a b : datetime) : exn + bool :=
  match utcoffset a, utcoffset b with
  | None, None => inr (wall a <? wall b)
  | Some oa, Some ob => inr (wall a - oa <? wall b - ob)
  | _, _ => inl TypeError
  end.

Definition dt_gt (a b : datetime) : exn + bool := dt_lt b a.

(** ** Data model *)

Record SecretLink : Type := mk_SecretLink {
  link_id : string;
  permission_level : string;
  link_origin : option string;
  description : string;
  expires_at : option Z;          (* naive UTC column *)
  extra_data : list (string * string)
}.

Record Grant : Type := mk_Grant {
  subject_type : string;
  subject_id : string;
  permission : string;
  origin : option string
}.

Record Parent : Type := mk_Parent {
  links : list SecretLink;        (* parent.access.links *)
  grants : list Grant;            (* parent.access.grants *)
  owner : option string           (* parent.access.owner.resolve() *)
}.

(** A record or draft; [parent_key] names the parent object it shares with
    the other versions; [truthy] is what [if record:] sees. *)
Record RecordEntry : Type := mk_RecordEntry {
  pid : string;
  parent_key : nat;
  truthy : bool;
  title : string
}.

Record Identity : Type := mk_Identity {
  identity_id : string;              (* str(identity.id) *)
  provides_authenticated_user : bool (* authenticated_user in identity.provides *)
}.

(** Who created a request: [{"user": id}] or [{"email": address}]. *)
Inductive EntityRef : Type :=
| RefUser (id : string)
| RefEmail (address : string).

Inductive RequestStatus : Type :=
| Created | Submitted | Accepted | Declined | Cancelled | Expired.

Record RequestPayload : Type := mk_RequestPayload {
  p_permission : string;
  p_message : option string;
  p_email : option string;
  p_full_name : option string;
  p_token : option string
}.

(** A row of the request table.  [has_data] is [rm.data] being non-empty. *)
Record Request : Type := mk_Request {
  request_id : string;
  has_data : bool;
  type_id : string;
  created_by : EntityRef;
  topic : string;
  receiver : option string;
  status : RequestStatus;
  payload : RequestPayload;
  comment : option string
}.

Record AccessRequestToken : Type := mk_AccessRequestToken {
  token : string;
  email : string;
  full_name : string;
  message : option string;
  record_pid : string;
  created : Z;
  shelf_life : Z
}.

(** Operations registered with the unit of work. *)
Inductive Op : Type :=
| RecordCommitOp_parent (k : nat)
| RecordCommitOp_record (pid : string)
| IndexRelatedRecordsOp (pid : string) (k : nat)
| EmailOp (receiver subject html_body body : string).

(** The store. *)
Record world : Type := mk_world {
  records : gmap string RecordEntry;        (* published records by pid *)
  drafts : gmap string RecordEntry;         (* drafts by pid *)
  parents : gmap nat Parent;                (* parent objects *)
  uow : list Op;                            (* operations registered so far *)
  ticks : nat;                              (* clock readings taken so far *)
  next_link : nat;                          (* source of fresh link ids *)
  tokens : list AccessRequestToken;         (* guest access request tokens *)
  requests : list Request                   (* request table *)
}.

#[global] Instance EntityRef_eq_dec : EqDecision EntityRef.
Proof. solve_decision. Defined.

(** ** Payloads

    A payload is a dict: a field is [None] when the key is absent.  The
    [expires_at] key may also be present with the value [null], which the
    service tells apart from the key being absent. *)

Record LinkData : Type := mk_LinkData {
  d_expires_at : option (option datetime);
  d_permission : option string;
  d_origin : option string;
  d_description : option string;
  d_extra_data : option (list (string * string))
}.

Record SubjectData : Type := mk_SubjectData {
  s_type : option string;
  s_id : option string
}.

Record GrantData : Type := mk_GrantData {
  g_permission : option string;
  g_subject : option SubjectData;
  g_origin : option (option string)
}.

(** ** Collaborators

    What the service consumes and the sources do not define: the permission
    policy, the clock, the marshmallow schemas, the set of permission levels a
    secret link may carry, the subject lookup behind grants, the request type
    identifiers, and the validation verdict of the requests service. *)

Record Collaborators : Type := mk_Collaborators {
  permits : world -> Identity -> string -> RecordEntry -> bool;
  utc_clock : nat -> Z;
  schema_secret_link : LinkData -> exn + LinkData;
  schema_grant : GrantData -> exn + GrantData;
  allowed_levels : list string;
  subject_exists : string -> string -> bool;
  UserAccessRequest_type_id : string;
  GuestAccessRequest_type_id : string;
  create_errors : RequestPayload -> bool
}.

(** ** The monad of service methods *)

Definition M (A : Type) : Type := world -> (exn + A) * world.

Definition ret {A : Type} (a : A) : M A := fun w => (inr a, w).

Definition raise {A : Type} (e : exn) : M A := fun w => (inl e, w).

Definition bind {A B : Type} (m : M A) (k : A -> M B) : M B :=
  fun w => match m w with
           | (inl e, w') => (inl e, w')
           | (inr a, w') => k a w'
           end.

Definition lift {A : Type} (r : exn + A) : M A := fun w => (r, w).

Definition get_world : M world := fun w => (inr w, w).

Definition modify (f : world -> world) : M unit := fun w => (inr tt, f w).

(** [try: m  except <caught>: handler] *)
Definition try_except {A : Type} (m : M A) (caught : exn -> bool) (handler : exn -> M A) : M A :=
  fun w => match m w with
           | (inl e, w') => if caught e then handler e w' else (inl e, w')
           | r => r
           end.

Declare Scope service_scope.
Delimit Scope service_scope with service.
Notation "x <~ c ;; k" := (bind c (fun x => k))
  (at level 100, c at next level, right associativity) : service_scope.
Notation "c ;;; k" := (bind c (fun _ => k))
  (at level 100, right associativity) : service_scope.
Local Open Scope service_scope.

(** Python truthiness of an optional value and of a string. *)
Definition given {A : Type} (o : option A) : bool :=
  match o with Some _ => true | None => false end.

Definition nonempty (s : string) : bool :=
  match s with EmptyString => false | _ => true end.

(** [data[key]] on a dict. *)
Definition getkey {A : Type} (key : string) (o : option A) : M A :=
  match o with Some a => ret a | None => raise (KeyError key) end.

(** [l.index(x)]: the first position holding [x]. *)
Fixpoint index_of (l : list string) (x : string) : option nat :=
  match l with
  | [] => None
  | y :: l' => if String.eqb y x then Some 0%nat else S <$> index_of l' x
  end.

(** Field updates of the store. *)
Definition set_parents (f : gmap nat Parent -> gmap nat Parent) (w : world) : world :=
  mk_world (records w) (drafts w) (f (parents w)) (uow w) (ticks w) (next_link w)
           (tokens w) (requests w).

Definition set_uow (f : list Op -> list Op) (w : world) : world :=
  mk_world (records w) (drafts w) (parents w) (f (uow w)) (ticks w) (next_link w)
           (tokens w) (requests w).

Definition set_ticks (f : nat -> nat) (w : world) : world :=
  mk_world (records w) (drafts w) (parents w) (uow w) (f (ticks w)) (next_link w)
           (tokens w) (requests w).

Definition set_next_link (f : nat -> nat) (w : world) : world :=
  mk_world (records w) (drafts w) (parents w) (uow w) (ticks w) (f (next_link w))
           (tokens w) (requests w).

Definition set_tokens (f : list AccessRequestToken -> list AccessRequestToken) (w : world) : world :=
  mk_world (records w) (drafts w) (parents w) (uow w) (ticks w) (next_link w)
           (f (tokens w)) (requests w).

Definition set_requests (f : list Request -> list Request) (w : world) : world :=
  mk_world (records w) (drafts w) (parents w) (uow w) (ticks w) (next_link w)
           (tokens w) (f (requests w)).

Definition set_links (f : list SecretLink -> list SecretLink) (p : Parent) : Parent :=
  mk_Parent (f (links p)) (grants p) (owner p).

Definition set_grants (f : list Grant -> list Grant) (p : Parent) : Parent :=
  mk_Parent (links p) (f (grants p)) (owner p).

(** A token is alive at [now] while its shelf life has not run out. *)
Definition token_alive (now : Z) (t : AccessRequestToken) : Prop :=
  now <= created t + shelf_life t.

#[global] Instance token_alive_dec (now : Z) (t : AccessRequestToken) :
  Decision (token_alive now t).
Proof. unfold token_alive. apply _. Defined.

(** The data a partial update of a grant validates: fields the payload leaves
    out are taken from the grant being replaced. *)
Definition partial_data (old_grant : Grant) (data : GrantData) : GrantData :=
  mk_GrantData
    (Some (default (permission old_grant) (g_permission data)))
    (Some (mk_SubjectData
             (Some (default (subject_type old_grant) (g_subject data ≫= s_type)))
             (Some (default (subject_id old_grant) (g_subject data ≫= s_id)))))
    (Some (default (origin old_grant) (g_origin data))).

(** A request after its [submit] action, with the comment attached. *)
Definition submitted (r : Request) (content : string) : Request :=
  mk_Request (request_id r) (has_data r) (type_id r) (created_by r) (topic r)
             (receiver r) Submitted (payload r) (Some content).

(** What the "Commit" and "Index" blocks of a mutating method register. *)
Definition commit_ops (record : RecordEntry) (parent : nat) : list Op :=
  RecordCommitOp_parent parent
  :: (if truthy record then [RecordCommitOp_record (pid record)] else [])
  ++ [IndexRelatedRecordsOp (pid record) parent].

(** ** The service *)

Section Service.
Context (C : Collaborators).

(** [datetime.utcnow()]: reading number [ticks] of the clock, a naive datetime. *)
Definition utcnow : M datetime :=
  fun w => (inr (naive (utc_clock C (ticks w))), set_ticks S w).

(** Modelled from the spec: [_get_record_and_parent_by_id] and
    [_get_draft_and_parent_by_id] (inherited from [RecordService], not among
    the sources).  "Record/Parent resolution: resolve(id) -> (record, parent)
    for both draft and published states; raises not-found if neither exists":
    a lookup in the table of published records, respectively of drafts, that
    returns the entry together with its parent, raises [NoResultFound] when
    there is none, and leaves the store as it is. *)
Definition resolve_in (table : world -> gmap string RecordEntry) (id_ : string)
  : M (RecordEntry * nat) :=
  fun w => match table w !! id_ with
           | Some r => if given (parents w !! parent_key r)
                       then (inr (r, parent_key r), w)
                       else (inl NoResultFound, w)
           | None => (inl NoResultFound, w)
           end.

Definition _get_record_and_parent_by_id : string -> M (RecordEntry * nat) :=
  resolve_in records.

Definition _get_draft_and_parent_by_id : string -> M (RecordEntry * nat) :=
  resolve_in drafts.

Definition is_NoResultFound (e : exn) : bool :=
  match e with NoResultFound => true | _ => false end.

Definition get_parent_and_record_or_draft (_id : string) : M (RecordEntry * nat) :=
  try_except (_get_record_and_parent_by_id _id) is_NoResultFound
             (fun _ => _get_draft_and_parent_by_id _id).

Definition require_permission (identity : Identity) (action : string) (record : RecordEntry)
  : M unit :=
  fun w => if permits C w identity action record
           then (inr tt, w)
           else (inl (PermissionDeniedError (Some action)), w).

(** The parent object behind a reference, and its mutation in place. *)
Definition parent_obj (parent : nat) : M Parent :=
  fun w => match parents w !! parent with
           | Some p => (inr p, w)
           | None => (inl NoResultFound, w)
           end.

Definition update_parent (parent : nat) (f : Parent -> Parent) : M unit :=
  modify (set_parents (alter f parent)).

(** [uow.register(op)] *)
Definition register (op : Op) : M unit := modify (set_uow (fun ops => ops ++ [op])).

Definition _index_related_records (record : RecordEntry) (parent : nat) : M unit :=
  register (IndexRelatedRecordsOp (pid record) parent).

(** The "Commit" and "Index" blocks that close every mutating method. *)
Definition commit_and_index (record : RecordEntry) (parent : nat) : M unit :=
  register (RecordCommitOp_parent parent) ;;;
  (if truthy record then register (RecordCommitOp_record (pid record)) else ret tt) ;;;
  _index_related_records record parent.

(** *** Secret links *)

Definition msg_future : string := "Expiration date must be set to the future".
Definition msg_postpone : string := "Cannot postpone expiration of links".
Definition msg_required : string := "An access permission level is required".
Definition msg_invalid_level : string := "Invalid access permission level.".
Definition msg_subject : string := "Could not find the specified subject.".

Definition _validate_secret_link_expires_at
  (value : option datetime) (is_specified : bool) (secret_link : option SecretLink)
  : M (option datetime) :=
  value <~ match value with
           | Some d =>
               if is_specified then
                 let d := to_utc_naive d in
                 now <~ utcnow ;;
                 past <~ lift (dt_lt d now) ;;
                 if past : bool then raise (ValidationError msg_future "expires_at")
                 else ret (Some d)
               else ret value
           | None => ret value
           end ;;
  match secret_link with
  | None => ret value
  | Some secret_link =>
      let introduces_expiration :=
        is_specified && negb (given value) && given (expires_at secret_link) in
      extends_existing_expiration <~
        match value, expires_at secret_link with
        | Some d, Some old => lift (dt_gt d (naive old))
        | _, _ => ret false
        end ;;
      let increases_expiration := introduces_expiration || extends_existing_expiration in
      if increases_expiration then raise (ValidationError msg_postpone "expires_at")
      else match value with
           | Some d =>
               now <~ utcnow ;;
               past <~ lift (dt_lt d now) ;;
               if past : bool then raise (ValidationError msg_future "expires_at")
               else ret value
           | None => ret value
           end
  end.

(** Modelled from the spec: [parent.access.links.create] (the link collection
    is not among the sources).  It "constructs a SecretLink on the parent's
    link collection" and "fails with an invalid-permission-level error if the
    requested level is not in the allowed set"; the failure leaves the
    collection untouched.  The new link gets a fresh identifier. *)
Definition links_create (parent : nat) (permission_level : string) (origin : option string)
  (description : string) (expires_at : option datetime) (extra_data : list (string * string))
  : M SecretLink :=
  if bool_decide (permission_level ∈ allowed_levels C) then
    w <~ get_world ;;
    let link := mk_SecretLink (pretty (next_link w)) permission_level origin description
                              (wall <$> expires_at) extra_data in
    modify (set_next_link S) ;;;
    update_parent parent (set_links (fun l => l ++ [link])) ;;;
    ret link
  else raise (InvalidPermissionLevelError permission_level).

Definition is_InvalidPermissionLevelError (e : exn) : bool :=
  match e with InvalidPermissionLevelError _ => true | _ => false end.

Definition create_secret_link (identity : Identity) (id_ : string) (data : LinkData)
  : M SecretLink :=
  rp <~ get_parent_and_record_or_draft id_ ;;
  let '(record, parent) := rp in
  require_permission identity "manage" record ;;;
  data <~ lift (schema_secret_link C data) ;;
  expires_at <~ _validate_secret_link_expires_at (mjoin (d_expires_at data)) true None ;;
  match d_permission data with
  | None => raise (ValidationError msg_required "permission")
  | Some level =>
      link <~ try_except
                (links_create parent level (d_origin data)
                   (default "" (d_description data)) expires_at
                   (default [] (d_extra_data data)))
                is_InvalidPermissionLevelError
                (fun _ => raise (ValidationError msg_invalid_level "permission")) ;;
      commit_and_index record parent ;;;
      ret link
  end.

(** The link with identifier [link_id] and its position, as the "Fetching"
    block of the read, update and delete methods finds it. *)
Definition fetch_link (parent : nat) (link_id_ : string) : M (nat * SecretLink) :=
  p <~ parent_obj parent ;;
  let link_ids := link_id <$> links p in
  match index_of link_ids link_id_ with
  | None => raise (LookupError link_id_)
  | Some link_idx =>
      link <~ lift (PyList.getitem (links p) (Z.of_nat link_idx)) ;;
      ret (link_idx, link)
  end.

Definition read_secret_link (identity : Identity) (id_ : string) (link_id_ : string)
  : M SecretLink :=
  rp <~ get_parent_and_record_or_draft id_ ;;
  let '(record, parent) := rp in
  require_permission identity "manage" record ;;;
  il <~ fetch_link parent link_id_ ;;
  ret (snd il).

(** [a or b] on an optional column value and on an optional string. *)
Definition or_else (a b : option Z) : option Z :=
  match a with Some _ => a | None => b end.

Definition or_string (a : option string) (b : string) : string :=
  match a with
  | Some s => if nonempty s then s else b
  | None => b
  end.

Definition update_secret_link (identity : Identity) (id_ : string) (link_id_ : string)
  (data : LinkData) : M SecretLink :=
  rp <~ get_parent_and_record_or_draft id_ ;;
  let '(record, parent) := rp in
  require_permission identity "manage" record ;;;
  il <~ fetch_link parent link_id_ ;;
  let '(link_idx, link) := il in
  data <~ lift (schema_secret_link C data) ;;
  let permission := d_permission data in
  expires_at_ <~ _validate_secret_link_expires_at
                   (mjoin (d_expires_at data)) (given (d_expires_at data)) (Some link) ;;
  let link :=
    mk_SecretLink (link_id link)
                  (or_string permission (permission_level link))
                  (link_origin link)
                  (default (description link) (d_description data))
                  (or_else (wall <$> expires_at_) (expires_at link))
                  (extra_data link) in
  update_parent parent (set_links (fun l => <[link_idx := link]> l)) ;;;
  commit_and_index record parent ;;;
  ret link.

(** *** Access grants *)

(** Modelled from the spec: [grant_cls.create] (the grant class is not among
    the sources).  It "creates a brand-new grant object ... with subject
    resolution eager" and the update "fails with subject not found if
    resolution fails": with [resolve_subject] an unknown subject raises
    [LookupError]. *)
Definition grant_create (origin : option string) (permission subject_type subject_id : string)
  (resolve_subject : bool) : M Grant :=
  if resolve_subject && negb (subject_exists C subject_type subject_id)
  then raise (LookupError subject_id)
  else ret (mk_Grant subject_type subject_id permission origin).

Definition read_grant (identity : Identity) (id_ : string) (grant_id : Z) : M Grant :=
  rp <~ get_parent_and_record_or_draft id_ ;;
  let '(record, parent) := rp in
  require_permission identity "manage" record ;;;
  p <~ parent_obj parent ;;
  if negb ((0 <=? grant_id) && (grant_id <? Z.of_nat (length (grants p))))
  then raise (LookupError (pretty grant_id))
  else lift (PyList.getitem (grants p) grant_id).

Definition update_grant (identity : Identity) (id_ : string) (grant_id : Z)
  (data : GrantData) (partial : bool) : M Grant :=
  rp <~ get_parent_and_record_or_draft id_ ;;
  let '(record, parent) := rp in
  require_permission identity "manage" record ;;;
  p <~ parent_obj parent ;;
  old_grant <~ lift (PyList.getitem (grants p) grant_id) ;;
  let data := if partial then partial_data old_grant data else data in
  data <~ lift (schema_grant C data) ;;
  new_grant <~ try_except
                 (origin <~ getkey "origin" (g_origin data) ;;
                  permission <~ getkey "permission" (g_permission data) ;;
                  subject <~ getkey "subject" (g_subject data) ;;
                  subject_type <~ getkey "type" (s_type subject) ;;
                  subject <~ getkey "subject" (g_subject data) ;;
                  subject_id <~ getkey "id" (s_id subject) ;;
                  grant_create origin permission subject_type subject_id true)
                 is_LookupError
                 (fun _ => raise (ValidationError msg_subject "subject.id")) ;;
  p <~ parent_obj parent ;;
  new_grants <~ lift (PyList.setitem (grants p) grant_id new_grant) ;;
  update_parent parent (set_grants (fun _ => new_grants)) ;;;
  commit_and_index record parent ;;;
  ret new_grant.

Definition read_all_grants (identity : Identity) (id_ : string) : M (list Grant) :=
  rp <~ get_parent_and_record_or_draft id_ ;;
  let '(record, parent) := rp in
  require_permission identity "manage" record ;;;
  p <~ parent_obj parent ;;
  ret (grants p).

Definition delete_grant (identity : Identity) (id_ : string) (grant_id : Z) : M bool :=
  rp <~ get_parent_and_record_or_draft id_ ;;
  let '(record, parent) := rp in
  require_permission identity "manage" record ;;;
  p <~ parent_obj parent ;;
  if negb ((0 <=? grant_id) && (grant_id <? Z.of_nat (length (grants p))))
  then raise (LookupError (pretty grant_id))
  else
    popped <~ lift (PyList.pop (grants p) grant_id) ;;
    update_parent parent (set_grants (fun _ => snd popped)) ;;;
    commit_and_index record parent ;;;
    ret true.

(** *** Access requests *)

(** The requests service (an external collaborator), by its contract:
    [create] stores a new request in status [Created] under a fresh id and
    reports whether validation found errors; the [submit] action moves the
    request to [Submitted] and attaches the comment; a request is open while
    it is [Submitted]. *)
Definition is_open (r : Request) : bool :=
  match status r with Submitted => true | _ => false end.

Definition requests_create (creator : EntityRef) (data : RequestPayload) (request_type : string)
  (receiver : option string) (topic : string) : M (Request * bool) :=
  w <~ get_world ;;
  let request := mk_Request (pretty (length (requests w))) true request_type creator topic
                            receiver Created data None in
  modify (set_requests (fun rs => rs ++ [request])) ;;;
  ret (request, create_errors C data).

Definition execute_action_submit (id : string) (content : string) : M Request :=
  w <~ get_world ;;
  match list_find (fun r => request_id r = id) (requests w) with
  | None => raise NoResultFound
  | Some (i, r) =>
      let r := submitted r content in
      modify (set_requests (fun rs => <[i := r]> rs)) ;;;
      ret r
  end.

(** [record_cls.pid.resolve(id_)]: published records only. *)
Definition pid_resolve (id_ : string) : M RecordEntry :=
  fun w => match records w !! id_ with
           | Some r => (inr r, w)
           | None => (inl PIDDoesNotExistError, w)
           end.

(** The "Detect duplicate requests" comprehension: rows of the request table
    created by [creator] on [topic_], then those with data of the given type,
    then those that are open. *)
Definition open_requests (creator : EntityRef) (topic_ : string) (type_ : string)
  (rs : list Request) : list Request :=
  filter (fun r => is_open r = true)
    (filter (fun r => has_data r = true ∧ type_id r = type_)
       (filter (fun r => created_by r = creator ∧ topic r = topic_) rs)).

Definition is_PermissionDeniedError (e : exn) : bool :=
  match e with PermissionDeniedError _ => true | _ => false end.

Definition create_user_access_request (identity : Identity) (id_ : string)
  (message : option string) : M Request :=
  record <~ pid_resolve id_ ;;
  require_permission identity "read" record ;;;
  denied <~ try_except (require_permission identity "read_files" record ;;; ret false)
                       is_PermissionDeniedError (fun _ => ret true) ;;
  if negb denied then raise (PermissionDeniedError None)
  else
    w <~ get_world ;;
    let requests := open_requests (RefUser (identity_id identity)) id_
                                  (UserAccessRequest_type_id C) (requests w) in
    if negb (bool_decide (requests = [])) then
      raise (DuplicateAccessRequestError (request_id <$> requests))
    else
      record <~ pid_resolve id_ ;;
      let data := mk_RequestPayload "view" message None None None in
      p <~ parent_obj (parent_key record) ;;
      let receiver := owner p in
      rq <~ requests_create (RefUser (identity_id identity)) data
                            (UserAccessRequest_type_id C) receiver (pid record) ;;
      let '(request, errors) := rq in
      if errors : bool then ret request
      else execute_action_submit (request_id request) (or_string (p_message data) "").

(** Modelled from the spec: the token store [AccessRequestToken] (not among
    the sources).  Tokens are "created with a fixed time-to-live", a token is
    fetched by its string, and one that is unknown or has outlived its shelf
    life ([token_alive] fails) "becomes unresolvable"; [delete] removes the
    token. *)

Definition AccessRequestToken_get_by_token (token_ : string) : M (option AccessRequestToken) :=
  now <~ utcnow ;;
  w <~ get_world ;;
  ret (head (filter (fun t => token t = token_ ∧ token_alive (wall now) t) (tokens w))).

Definition AccessRequestToken_delete (access_token : AccessRequestToken) : M unit :=
  modify (set_tokens (filter (fun t => token t ≠ token access_token))).

Definition guest_comment (full_name email message : string) : string :=
  full_name +:+ " (" +:+ email +:+ ") commented" +:+ ": " +:+ message.

(** [create_guest_access_request] with the requests service left open:
    [create] stands for [current_requests_service.create] and [submit] for
    [current_requests_service.execute_action(identity, id, "submit", data)],
    whatever the two do to the store and whether they return or raise. *)
Definition create_guest_access_request_over
  (create : EntityRef -> RequestPayload -> string -> option string -> string
            -> M (Request * bool))
  (submit : string -> string -> M Request)
  (identity : Identity) (token_ : string) : M (option Request) :=
  if provides_authenticated_user identity
  then raise (PermissionDeniedError (Some "request_guest_access"))
  else
    access_token <~ AccessRequestToken_get_by_token token_ ;;
    match access_token with
    | None => ret None
    | Some access_token =>
        record <~ pid_resolve (record_pid access_token) ;;
        w <~ get_world ;;
        let requests := open_requests (RefEmail (email access_token)) (record_pid access_token)
                                      (GuestAccessRequest_type_id C) (requests w) in
        if negb (bool_decide (requests = [])) then
          raise (DuplicateAccessRequestError (request_id <$> requests))
        else
          let data := mk_RequestPayload "view"
                        (Some (or_string (message access_token) ""))
                        (Some (email access_token))
                        (Some (full_name access_token))
                        (Some (token access_token)) in
          p <~ parent_obj (parent_key record) ;;
          let receiver := owner p in
          AccessRequestToken_delete access_token ;;;
          rq <~ create (RefEmail (email access_token)) data
                       (GuestAccessRequest_type_id C) receiver (pid record) ;;
          let '(request, errors) := rq in
          if errors : bool then ret (Some request)
          else
            r <~ submit (request_id request)
                   (guest_comment (full_name access_token) (email access_token)
                                  (or_string (p_message data) "")) ;;
            ret (Some r)
    end.

(** The method, with the requests service as modelled above. *)
Definition create_guest_access_request (identity : Identity) (token_ : string)
  : M (option Request) :=
  create_guest_access_request_over requests_create execute_action_submit identity token_.

End Service.

(** * Notions used in the statements *)

Section Notions.
Context (C : Collaborators).

(** [identity] reaches the body of a link or grant method called with [id_]:
    the id resolves to [record] with parent object [p], and the policy lets
    [identity] manage the record. *)
Definition manages (w : world) (identity : Identity) (id_ : string)
  (record : RecordEntry) (parent : nat) (p : Parent) : Prop :=
  get_parent_and_record_or_draft id_ w = (inr (record, parent), w)
  ∧ parents w !! parent = Some p
  ∧ permits C w identity "manage" record = true.

(** The store a successful [delete_grant] leaves behind. *)
Definition after_delete_grant (record : RecordEntry) (parent : nat) (p : Parent) (i : Z)
  (w : world) : world :=
  set_uow (fun ops => ops ++ commit_ops record parent)
    (set_parents (alter (set_grants (fun _ => delete (Z.to_nat i) (grants p))) parent) w).

(** The store a successful [update_grant] leaves behind: position [k] of the
    grant sequence holds the new grant. *)
Definition after_update_grant (record : RecordEntry) (parent : nat) (p : Parent) (k : nat)
  (new_grant : Grant) (w : world) : world :=
  set_uow (fun ops => ops ++ commit_ops record parent)
    (set_parents (alter (set_grants (fun _ => <[k := new_grant]> (grants p))) parent) w).

(** The UTC instant an [expires_at] value of a payload denotes. *)
Definition expiry_instant (d : datetime) : Z := wall (to_utc_naive d).

Definition future_error : exn := ValidationError msg_future "expires_at".
Definition postpone_error : exn := ValidationError msg_postpone "expires_at".

(** [link] is the link that the methods fetch for [link_id_]: the first one
    of the parent carrying that id, at position [idx]. *)
Definition has_link (p : Parent) (link_id_ : string) (idx : nat) (link : SecretLink) : Prop :=
  index_of (link_id <$> links p) link_id_ = Some idx ∧ links p !! idx = Some link.

(** The link an accepted update stores, and the store it leaves behind. *)
Definition updated_link (link : SecretLink) (loaded : LinkData) (value : option datetime)
  : SecretLink :=
  mk_SecretLink (link_id link)
                (or_string (d_permission loaded) (permission_level link))
                (link_origin link)
                (default (description link) (d_description loaded))
                (or_else (wall <$> value) (expires_at link))
                (extra_data link).

Definition after_update_link (record : RecordEntry) (parent : nat) (idx : nat)
  (link : SecretLink) (w : world) : world :=
  set_uow (fun ops => ops ++ commit_ops record parent)
    (set_parents (alter (set_links (fun l => <[idx := link]> l)) parent) w).

(** The link [create_secret_link] builds, and the store it leaves behind. *)
Definition created_link (w : world) (level : string) (loaded : LinkData)
  (value : option datetime) : SecretLink :=
  mk_SecretLink (pretty (next_link w)) level (d_origin loaded)
                (default "" (d_description loaded)) (wall <$> value)
                (default [] (d_extra_data loaded)).

Definition after_create_link (record : RecordEntry) (parent : nat) (link : SecretLink)
  (w : world) : world :=
  set_uow (fun ops => ops ++ commit_ops record parent)
    (set_parents (alter (set_links (fun l => l ++ [link])) parent) (set_next_link S w)).

Definition required_error : exn := ValidationError msg_required "permission".
Definition invalid_level_error : exn := ValidationError msg_invalid_level "permission".

(** The expiration of a payload passes the check of [create_secret_link]. *)
Definition expiration_passes (w : world) (loaded : LinkData) : Prop :=
  ∀ d, mjoin (d_expires_at loaded) = Some d -> utc_clock C (ticks w) <= expiry_instant d.

(** The identity passes the permission gate of [create_user_access_request]. *)
Definition may_request (w : world) (identity : Identity) (id_ : string)
  (record : RecordEntry) : Prop :=
  records w !! id_ = Some record
  ∧ permits C w identity "read" record = true
  ∧ permits C w identity "read_files" record = false.

(** The id the requests service gives its next request is not in use. *)
Definition fresh_request_id (w : world) : Prop :=
  ∀ r, r ∈ requests w -> request_id r ≠ pretty (length (requests w)).

(** The request [create_user_access_request] stores for [identity]. *)
Definition user_request (w : world) (identity : Identity) (record : RecordEntry)
  (p : Parent) (message : option string) : Request :=
  mk_Request (pretty (length (requests w))) true (UserAccessRequest_type_id C)
             (RefUser (identity_id identity)) (pid record) (owner p) Created
             (mk_RequestPayload "view" message None None None) None.

(** The token that [get_by_token] resolves for a token string, if any. *)
Definition redeemable (w : world) (token_ : string) : option AccessRequestToken :=
  head (filter (fun t => token t = token_ ∧ token_alive (utc_clock C (ticks w)) t) (tokens w)).

(** The request payload built from a token, and the request stored for it. *)
Definition guest_payload (t : AccessRequestToken) : RequestPayload :=
  mk_RequestPayload "view" (Some (or_string (message t) "")) (Some (email t))
                    (Some (full_name t)) (Some (token t)).

Definition guest_request (w : world) (t : AccessRequestToken) (record : RecordEntry)
  (p : Parent) : Request :=
  mk_Request (pretty (length (requests w))) true (GuestAccessRequest_type_id C)
             (RefEmail (email t)) (pid record) (owner p) Created (guest_payload t) None.

(** What [create_guest_access_request] does once the token is deleted: create
    the request and, unless creation reported errors, submit it. *)
Definition create_and_submit (t : AccessRequestToken) (record : RecordEntry) (p : Parent)
  : M (option Request) :=
  bind (requests_create C (RefEmail (email t)) (guest_payload t)
          (GuestAccessRequest_type_id C) (owner p) (pid record))
    (fun rq => let '(request, errors) := rq in
               if errors : bool then ret (Some request)
               else bind (execute_action_submit (request_id request)
                            (guest_comment (full_name t) (email t)
                               (or_string (p_message (guest_payload t)) "")))
                         (fun r => ret (Some r))).

(** The store in which the requests service is called: the clock has been
    read and the token is gone. *)
Definition token_deleted (t : AccessRequestToken) (w : world) : world :=
  set_tokens (filter (fun t' => token t' ≠ token t)) (set_ticks S w).

End Notions.

(** * The rest of the access service

    The methods of [RecordAccessService] not modelled above: listing and
    deleting secret links, creating grants, and issuing guest tokens.  What
    they consume beyond [Collaborators] is taken as section variables: the
    users and groups services, the resolution of a system role, the source of
    token strings and the URL builder. *)

(** [s.replace(old, new)] for a non-empty [old]: occurrences are found from the
    left and do not overlap; [skip] counts the characters of a found occurrence
    still to be dropped. *)
Fixpoint str_replace_go (old new : string) (skip : nat) (s : string) : string :=
  match s with
  | EmptyString => EmptyString
  | String c s' =>
      match skip with
      | S k => str_replace_go old new k s'
      | O => if String.prefix old s
             then new +:+ str_replace_go old new (String.length old - 1) s'
             else String c (str_replace_go old new 0 s')
      end
  end.

Definition str_replace (old new s : string) : string := str_replace_go old new 0 s.

(** The payload of [create_guest_access_request_token]; the message may be
    present with a null value. *)
Record GuestData : Type := mk_GuestData {
  gd_email : option string;
  gd_full_name : option string;
  gd_message : option (option string)
}.

(** The double quote character, as a string. *)
Definition dquote : string :=
  String (Ascii.Ascii false true false false false true false false) EmptyString.

(** [timedelta(hours=6)], in microseconds. *)
Definition six_hours : Z := 6 * 3600 * 1000000.

Definition msg_verification_sent : string :=
  "Verification link sent out, please check your e-mail inbox".

Definition is_LookupError_or_PermissionDeniedError (e : exn) : bool :=
  is_LookupError e || is_PermissionDeniedError e.

(** The store in which [create_grant] checks the subject: the grant is
    already at the end of the parent's grants. *)
Definition grant_appended (parent : nat) (grant : Grant) (w : world) : world :=
  set_parents (alter (set_grants (fun l => l ++ [grant])) parent) w.

(** The first link of a sequence that carries an id. *)
Definition first_link (l : list SecretLink) (link_id_ : string) : option SecretLink :=
  head (filter (fun link => link_id link = link_id_) l).

Section ServiceRest.
Context (C : Collaborators).

(** [current_user_resources.users_service.read], [groups_service.read] and
    the resolution [grant.subject] of a system role: each returns or raises. *)
Variable users_service_read : Identity -> string -> exn + unit.
Variable groups_service_read : Identity -> string -> exn + unit.
Variable system_role_subject : string -> exn + unit.

(** [secrets]-made token string of the next token, and
    [url_for("invenio_rdm_records_ext.verify_access_request_token",
    _external=True, access_request_token=...)]. *)
Variable new_token : world -> string.
Variable url_for_verify : string -> string.

Definition read_all_secret_links (identity : Identity) (id_ : string) : M (list SecretLink) :=
  rp <~ get_parent_and_record_or_draft id_ ;;
  let '(record, parent) := rp in
  require_permission C identity "manage" record ;;;
  p <~ parent_obj parent ;;
  ret (links p).

(** [link.revoke()] deletes the row behind the link; in the store a link
    lives in the parent's sequence only, so taking it out of the sequence
    leaves nothing of it behind. *)
Definition delete_secret_link (identity : Identity) (id_ : string) (link_id_ : string)
  : M bool :=
  rp <~ get_parent_and_record_or_draft id_ ;;
  let '(record, parent) := rp in
  require_permission C identity "manage" record ;;;
  il <~ fetch_link parent link_id_ ;;
  let '(link_idx, link) := il in
  p <~ parent_obj parent ;;
  popped <~ lift (PyList.pop (links p) (Z.of_nat link_idx)) ;;
  update_parent parent (set_links (fun _ => snd popped)) ;;;
  commit_and_index record parent ;;;
  ret true.

Definition _check_grant_subject (identity : Identity) (grant : Grant) : M bool :=
  try_except
    (if String.eqb (subject_type grant) "user" then
       lift (users_service_read identity (subject_id grant)) ;;; ret true
     else if String.eqb (subject_type grant) "role" then
       lift (groups_service_read identity (subject_id grant)) ;;; ret true
     else if String.eqb (subject_type grant) "system_role" then
       lift (system_role_subject (subject_id grant)) ;;; ret true
     else ret false)
    is_LookupError_or_PermissionDeniedError
    (fun _ => ret false).

(** Modelled from the spec: [parent.access.grants.create] (the grant
    collection is not among the sources).  It "provisionally constructs the
    grant" on the parent's grant sequence, whose positions grow by appending;
    the subject is not resolved at this point. *)
Definition grants_create (parent : nat) (subject_type subject_id permission : string)
  (origin : option string) : M Grant :=
  grant <~ grant_create C origin permission subject_type subject_id false ;;
  update_parent parent (set_grants (fun l => l ++ [grant])) ;;;
  ret grant.

Definition create_grant (identity : Identity) (id_ : string) (data : GrantData) : M Grant :=
  rp <~ get_parent_and_record_or_draft id_ ;;
  let '(record, parent) := rp in
  require_permission C identity "manage" record ;;;
  data <~ lift (schema_grant C data) ;;
  subject <~ getkey "subject" (g_subject data) ;;
  subject_type <~ getkey "type" (s_type subject) ;;
  subject <~ getkey "subject" (g_subject data) ;;
  subject_id <~ getkey "id" (s_id subject) ;;
  permission <~ getkey "permission" (g_permission data) ;;
  grant <~ grants_create parent subject_type subject_id permission (mjoin (g_origin data)) ;;
  found <~ _check_grant_subject identity grant ;;
  if negb found then raise (ValidationError msg_subject "subject.id")
  else
    commit_and_index record parent ;;;
    ret grant.

(** Modelled from the spec: [AccessRequestToken.create] (the token store is
    not among the sources): a token is "created with a fixed time-to-live",
    counted from the time of its creation, and gets a new opaque token string. *)
Definition AccessRequestToken_create (email full_name : string) (message : option string)
  (record_pid : string) (shelf_life : Z) : M AccessRequestToken :=
  now <~ utcnow C ;;
  w <~ get_world ;;
  let access_token := mk_AccessRequestToken (new_token w) email full_name message record_pid
                                            (wall now) shelf_life in
  modify (set_tokens (fun ts => ts ++ [access_token])) ;;;
  ret access_token.

Definition verification_subject (record : RecordEntry) : string :=
  "Access request for '" +:+ title record +:+ "'".

Definition verification_html (url : string) : string :=
  "Please verify your e-mail address via the following link in order to submit the access request: <a href="
  +:+ dquote +:+ url +:+ dquote +:+ ">" +:+ url +:+ "</a>".

Definition verification_body (url : string) : string :=
  "Please verify your e-mail address via the following link in order to submit the access request: " +:+ url.

Definition create_guest_access_request_token (identity : Identity) (id_ : string)
  (data : GuestData) : M string :=
  if provides_authenticated_user identity
  then raise (PermissionDeniedError (Some "request_guest_access"))
  else
    record <~ pid_resolve id_ ;;
    email <~ getkey "email" (gd_email data) ;;
    full_name <~ getkey "full_name" (gd_full_name data) ;;
    message <~ getkey "message" (gd_message data) ;;
    access_token <~ AccessRequestToken_create email full_name message id_ six_hours ;;
    let verify_url := str_replace "/api/" "/" (url_for_verify (token access_token)) in
    email <~ getkey "email" (gd_email data) ;;
    register (EmailOp email (verification_subject record) (verification_html verify_url)
                      (verification_body verify_url)) ;;;
    ret msg_verification_sent.

(** The token [create_guest_access_request_token] issues in [w], and the
    store it leaves behind. *)
Definition issued_token (w : world) (id_ em fn : string) (msg : option string)
  : AccessRequestToken :=
  mk_AccessRequestToken (new_token (set_ticks S w)) em fn msg id_
                        (utc_clock C (ticks w)) six_hours.

Definition issued (w : world) (id_ : string) (record : RecordEntry) (em fn : string)
  (msg : option string) : world :=
  let t := issued_token w id_ em fn msg in
  let url := str_replace "/api/" "/" (url_for_verify (token t)) in
  set_uow (fun ops => ops ++ [EmailOp em (verification_subject record)
                                      (verification_html url) (verification_body url)])
    (set_tokens (fun ts => ts ++ [t]) (set_ticks S w)).

(** The lookup [_check_grant_subject] performs for a subject: none for a
    subject type other than user, role and system role. *)
Definition subject_lookup (identity : Identity) (subject_type subject_id : string)
  : option (exn + unit) :=
  if String.eqb subject_type "user" then Some (users_service_read identity subject_id)
  else if String.eqb subject_type "role" then Some (groups_service_read identity subject_id)
  else if String.eqb subject_type "system_role" then Some (system_role_subject subject_id)
  else None.

End ServiceRest.

(** ** What a computation does to the store *)

(** Whatever the outcome, the store after the computation is related by [R]
    to the store before it. *)
Definition preserves (R : relation world) {A : Type} (m : M A) : Prop :=
  ∀ w, R w (snd (m w)).

(** The part [f] of the store is after as it was before. *)
Definition same {B : Type} (f : world -> B) : relation world :=
  fun w w' => f w' = f w.

(** The computation never changes the store. *)
Definition keeps_store {A : Type} (m : M A) : Prop := ∀ w, snd (m w) = w.

(** The computation never touches the unit of work, also when it fails. *)
Definition keeps_uow {A : Type} (m : M A) : Prop := preserves (same uow) m.

(** The computation registers with the unit of work only when it succeeds. *)
Definition registers_on_success_only {A : Type} (m : M A) : Prop :=
  ∀ w e w', m w = (inl e, w') -> uow w' = uow w.

(** [link'] is [link] at a later time: the same id, and if [link] had an
    expiration then [link'] has one that is not later. *)
Definition never_later (link link' : SecretLink) : Prop :=
  link_id link' = link_id link
  ∧ ∀ old, expires_at link = Some old ->
           ∃ new, expires_at link' = Some new ∧ new <= old.

(** Every link of every parent is found later at the position it had. *)
Definition links_kept : relation world := fun w w' =>
  ∀ parent p idx link,
    parents w !! parent = Some p -> links p !! idx = Some link ->
    ∃ p' link', parents w' !! parent = Some p' ∧ links p' !! idx = Some link'
                ∧ never_later link link'.

(** The request table as the requests service numbers it, published records
    filed under their own pid, and at most one open request of a type by a
    creator on a topic. *)
Definition requests_numbered (w : world) : Prop :=
  ∀ i r, requests w !! i = Some r -> request_id r = pretty i.

Definition records_by_pid (w : world) : Prop :=
  ∀ id_ record, records w !! id_ = Some record -> pid record = id_.

Definition one_open_request (w : world) : Prop :=
  ∀ creator topic_ type_,
    (length (open_requests creator topic_ type_ (requests w)) <= 1)%nat.

Definition requests_sound (w : world) : Prop :=
  requests_numbered w ∧ records_by_pid w ∧ one_open_request w.

(** ** Sequences of calls

    The calls of the service that change the store, [delete_secret_link]
    apart, and the store a sequence of them leaves behind: each call starts
    in the store the one before it left, whether that one returned or
    raised. *)
Inductive Call : Type :=
  | CreateSecretLink (identity : Identity) (id_ : string) (data : LinkData)
  | UpdateSecretLink (identity : Identity) (id_ link_id_ : string) (data : LinkData)
  | CreateGrant (identity : Identity) (id_ : string) (data : GrantData)
  | UpdateGrant (identity : Identity) (id_ : string) (grant_id : Z) (data : GrantData)
                (partial : bool)
  | DeleteGrant (identity : Identity) (id_ : string) (grant_id : Z)
  | CreateUserAccessRequest (identity : Identity) (id_ : string) (message : option string)
  | CreateGuestAccessRequestToken (identity : Identity) (id_ : string) (data : GuestData)
  | CreateGuestAccessRequest (identity : Identity) (token_ : string).

Section Calls.
Context (C : Collaborators).
Variable users_service_read : Identity -> string -> exn + unit.
Variable groups_service_read : Identity -> string -> exn + unit.
Variable system_role_subject : string -> exn + unit.
Variable new_token : world -> string.
Variable url_for_verify : string -> string.

Definition after_call (c : Call) (w : world) : world :=
  match c with
  | CreateSecretLink identity id_ data => snd (create_secret_link C identity id_ data w)
  | UpdateSecretLink identity id_ link_id_ data =>
      snd (update_secret_link C identity id_ link_id_ data w)
  | CreateGrant identity id_ data =>
      snd (create_grant C users_service_read groups_service_read system_role_subject
                        identity id_ data w)
  | UpdateGrant identity id_ grant_id data partial =>
      snd (update_grant C identity id_ grant_id data partial w)
  | DeleteGrant identity id_ grant_id => snd (delete_grant C identity id_ grant_id w)
  | CreateUserAccessRequest identity id_ message =>
      snd (create_user_access_request C identity id_ message w)
  | CreateGuestAccessRequestToken identity id_ data =>
      snd (create_guest_access_request_token C new_token url_for_verify identity id_ data w)
  | CreateGuestAccessRequest identity token_ =>
      snd (create_guest_access_request C identity token_ w)
  end.

Definition after_calls (cs : list Call) (w : world) : world :=
  foldl (fun w c => after_call c w) w cs.

End Calls.

(** * Collections: the computed column of [collections/models.py]

    Of the two tables of the module, what the source itself computes is the
    column [depth] of a collection, an expression over its materialised
    [path]; [string_to_array] and [array_length] are the SQL functions the
    expression names.  The rows, keys and constraints of the tables are kept
    by the database and are not modelled. *)

Module Collections.

(** The computed column [depth]:
    [array_length(string_to_array(path, ','), 1) - 2].  [string_to_array]
    gives the empty array for the empty string, and [array_length] is NULL on
    an empty array. *)
Definition comma : Ascii.ascii := Ascii.Ascii false false true true false true false false.

Fixpoint split_comma (s : string) : list string :=
  match s with
  | EmptyString => [EmptyString]
  | String c s' =>
      if Ascii.eqb c comma then EmptyString :: split_comma s'
      else match split_comma s' with
           | x :: xs => String c x :: xs
           | [] => [String c EmptyString]
           end
  end.

Definition string_to_array (s : string) : list string :=
  match s with EmptyString => [] | _ => split_comma s end.

Definition array_length (a : list string) : option Z :=
  match a with [] => None | _ => Some (Z.of_nat (length a)) end.

Definition depth (path : string) : option Z :=
  (fun n => n - 2) <$> array_length (string_to_array path).

(** The number of commas of a string. *)
Fixpoint commas (s : string) : nat :=
  match s with
  | EmptyString => 0
  | String c s' => if Ascii.eqb c comma then S (commas s') else commas s'
  end.

End Collections.

(** * A concrete repository

    One published record ["r1"] whose parent carries three secret links (one
    long expired, one without expiration, one expiring later) and two grants;
    user 1 manages the record, everybody else may only read its metadata; a
    guest holds a live token; the request table has one declined request. *)

Module Demo.

Definition demo : Collaborators :=
  mk_Collaborators
    (fun _ identity action _ =>
       bool_decide (identity_id identity = "1") || bool_decide (action = "read"))
    (fun n => 100 + Z.of_nat n)
    inr inr
    ["view"; "preview"; "edit"]
    (fun _ _ => true)
    "user-access-request" "guest-access-request"
    (fun _ => false).

Definition g1 : Grant := mk_Grant "user" "7" "view" None.
Definition g2 : Grant := mk_Grant "user" "8" "edit" None.
Definition l1 : SecretLink := mk_SecretLink "a" "view" None "" (Some 10) [].
Definition l2 : SecretLink := mk_SecretLink "b" "view" None "" None [].
Definition l3 : SecretLink := mk_SecretLink "c" "view" None "" (Some 200) [].
Definition p0 : Parent := mk_Parent [l1; l2; l3] [g1; g2] (Some "1").
Definition rec1 : RecordEntry := mk_RecordEntry "r1" 0 true "Dataset".
Definition tok : AccessRequestToken :=
  mk_AccessRequestToken "tok" "guest@example.org" "A Guest" (Some "please") "r1" 90 50.
Definition req0 : Request :=
  mk_Request "0" true "user-access-request" (RefUser "2") "r1" (Some "1") Declined
             (mk_RequestPayload "view" None None None None) None.

Definition w0 : world :=
  mk_world {["r1" := rec1]} ∅ {[0%nat := p0]} [] 0 0 [tok] [req0].

(** The same store with an open guest request of the address of [tok] on
    record "r1". *)
Definition open_guest_request : Request :=
  mk_Request "1" true "guest-access-request" (RefEmail "guest@example.org") "r1"
             (Some "1") Submitted
             (mk_RequestPayload "view" (Some "please") (Some "guest@example.org")
                                (Some "A Guest") (Some "old")) None.

Definition w_dup : world :=
  mk_world {["r1" := rec1]} ∅ {[0%nat := p0]} [] 0 0 [tok] [req0; open_guest_request].

Definition manager : Identity := mk_Identity "1" true.
Definition reader : Identity := mk_Identity "2" true.
Definition guest : Identity := mk_Identity "" false.

Definition expires (t : Z) : LinkData :=
  mk_LinkData (Some (Some (naive t))) None None None None.

Definition view_until (t : Z) : LinkData :=
  mk_LinkData (Some (Some (naive t))) (Some "view") None None None.

Definition stored_expiration (outcome : exn + SecretLink) : exn + option Z :=
  match outcome with inl e => inl e | inr link => inr (expires_at link) end.

End Demo.

(** More of the concrete repository: the services behind grant subjects, the
    source of token strings and the verification URL. *)

Module DemoMore.
Import Demo.

Definition users_read : Identity -> string -> exn + unit :=
  fun _ id => if bool_decide (id ∈ ["7"; "8"]) then inr tt else inl (LookupError id).

Definition groups_read : Identity -> string -> exn + unit :=
  fun _ id => if bool_decide (id = "curators") then inr tt
              else inl (PermissionDeniedError None).

Definition system_role : string -> exn + unit := fun _ => inr tt.

Definition token_string (w : world) : string := "t" +:+ pretty (length (tokens w)).

Definition verify_url (t : string) : string :=
  "https://repo.example.org/api/access/requests/confirm?access_request_token=" +:+ t.

Definition guest_data : GuestData :=
  mk_GuestData (Some "new@example.org") (Some "New Guest") (Some (Some "hello")).

Definition grant_data (st si pm : string) : GrantData :=
  mk_GrantData (Some pm) (Some (mk_SubjectData (Some st) (Some si))) None.

Definition only_permission (pm : string) : GrantData :=
  mk_GrantData (Some pm) None None.

End DemoMore.

(** * Properties *)

Section Properties.
Context (C : Collaborators).

(** ** Resolution, entry into a method, and grants *)

Lemma resolve_in_state table id_ w : snd (resolve_in table id_ w) = w.
Proof.
  unfold resolve_in. destruct (table w !! id_) as [r|]; [|done].
  by destruct (given _).
Qed.

(** Resolution never changes the store. *)
Lemma get_parent_and_record_or_draft_state id_ w :
  snd (get_parent_and_record_or_draft id_ w) = w.
Proof.
  unfold get_parent_and_record_or_draft, try_except,
    _get_record_and_parent_by_id, _get_draft_and_parent_by_id.
  pose proof (resolve_in_state records id_ w) as H1.
  destruct (resolve_in records id_ w) as [[e|a] w1]; simpl in *; subst; [|done].
  destruct (is_NoResultFound e); [|done]. apply resolve_in_state.
Qed.

(** Entering a method: resolution, permission check and parent access. *)
Lemma enter_method {A : Type} w identity id_ record parent p
  (k : RecordEntry -> nat -> Parent -> M A) :
  manages C w identity id_ record parent p ->
  bind (get_parent_and_record_or_draft id_)
    (fun rp => let '(record, parent) := rp in
               bind (require_permission C identity "manage" record)
                 (fun _ => bind (parent_obj parent) (fun p => k record parent p))) w
  = k record parent p w.
Proof.
  intros (Hr & Hp & Hm). unfold bind at 1. rewrite Hr.
  unfold bind at 1, require_permission. rewrite Hm.
  unfold bind at 1, parent_obj. by rewrite Hp.
Qed.

Lemma commit_and_index_run record parent w :
  commit_and_index record parent w
  = (inr tt, set_uow (fun ops => ops ++ commit_ops record parent) w).
Proof.
  unfold commit_and_index, _index_related_records, register, modify, bind, ret,
    commit_ops, set_uow.
  destruct (truthy record); simpl; by rewrite <- !app_assoc.
Qed.

Lemma position_inside (n : nat) (i : Z) :
  0 <= i < Z.of_nat n -> PyList.position n i = Some (Z.to_nat i).
Proof.
  intros H. unfold PyList.position.
  destruct (Z.leb_spec 0 i), (Z.ltb_spec i (Z.of_nat n)); simpl; done || lia.
Qed.

Lemma position_negative (n : nat) (i : Z) :
  - Z.of_nat n <= i < 0 -> PyList.position n i = Some (Z.to_nat (Z.of_nat n + i)).
Proof.
  intros H. unfold PyList.position.
  destruct (Z.leb_spec 0 i); simpl; [lia|].
  destruct (Z.leb_spec (- Z.of_nat n) i), (Z.ltb_spec i 0); simpl; done || lia.
Qed.

Lemma position_outside (n : nat) (i : Z) :
  i < - Z.of_nat n ∨ Z.of_nat n <= i -> PyList.position n i = None.
Proof.
  intros H. unfold PyList.position.
  destruct (Z.leb_spec 0 i), (Z.ltb_spec i (Z.of_nat n)),
    (Z.leb_spec (- Z.of_nat n) i), (Z.ltb_spec i 0); simpl; done || lia.
Qed.

Lemma bounds_check_inside (n : nat) (i : Z) :
  0 <= i < Z.of_nat n -> negb ((0 <=? i) && (i <? Z.of_nat n)) = false.
Proof.
  intros H. destruct (Z.leb_spec 0 i), (Z.ltb_spec i (Z.of_nat n)); simpl; done || lia.
Qed.

Lemma bounds_check_outside (n : nat) (i : Z) :
  ¬ (0 <= i < Z.of_nat n) -> negb ((0 <=? i) && (i <? Z.of_nat n)) = true.
Proof.
  intros H. destruct (Z.leb_spec 0 i), (Z.ltb_spec i (Z.of_nat n)); simpl; done || lia.
Qed.

Lemma lookup_inside {A : Type} (l : list A) (i : Z) :
  0 <= i < Z.of_nat (length l) -> ∃ x, l !! Z.to_nat i = Some x.
Proof.
  intros H. apply lookup_lt_is_Some. lia.
Qed.

(** Resolution only looks at the record tables and at which parents exist. *)
Lemma resolve_in_frame table id_ w w' :
  table w' = table w ->
  (∀ k, given (parents w' !! k) = given (parents w !! k)) ->
  fst (resolve_in table id_ w') = fst (resolve_in table id_ w).
Proof.
  intros Ht Hp. unfold resolve_in. rewrite Ht.
  destruct (table w !! id_) as [r|]; [|done].
  rewrite Hp. by destruct (given _).
Qed.

Lemma resolve_frame id_ w w' :
  records w' = records w -> drafts w' = drafts w ->
  (∀ k, given (parents w' !! k) = given (parents w !! k)) ->
  fst (get_parent_and_record_or_draft id_ w') = fst (get_parent_and_record_or_draft id_ w).
Proof.
  intros Hr Hd Hp.
  unfold get_parent_and_record_or_draft, try_except,
    _get_record_and_parent_by_id, _get_draft_and_parent_by_id.
  pose proof (resolve_in_frame records id_ w w' Hr Hp) as H1.
  pose proof (resolve_in_state records id_ w) as S1.
  pose proof (resolve_in_state records id_ w') as S1'.
  destruct (resolve_in records id_ w) as [[e|a] w1],
           (resolve_in records id_ w') as [[e'|a'] w1']; simpl in *; subst;
    try discriminate; [|done].
  injection H1 as ->. destruct (is_NoResultFound e); [|done].
  by apply resolve_in_frame.
Qed.

Lemma given_alter (f : Parent -> Parent) (k k' : nat) (m : gmap nat Parent) :
  given (alter f k m !! k') = given (m !! k').
Proof.
  destruct (decide (k = k')) as [->|Hne].
  - rewrite lookup_alter_eq. by destruct (m !! k').
  - by rewrite lookup_alter_ne.
Qed.

(** A manager of the record still reaches the method body after the parent
    object was mutated in place, provided the policy still lets them. *)
Lemma manages_after w w' identity id_ record parent p (f : Parent -> Parent) :
  manages C w identity id_ record parent p ->
  records w' = records w -> drafts w' = drafts w ->
  parents w' = alter f parent (parents w) ->
  permits C w' identity "manage" record = true ->
  manages C w' identity id_ record parent (f p).
Proof.
  intros (Hr & Hp & _) Hrec Hdr Hpar Hperm. repeat split; [| |done].
  - pose proof (resolve_frame id_ w w' Hrec Hdr) as Hf.
    rewrite Hr in Hf. simpl in Hf.
    pose proof (get_parent_and_record_or_draft_state id_ w') as Hs.
    destruct (get_parent_and_record_or_draft id_ w') as [r w1]. simpl in *. subst w1.
    rewrite Hf; [done|]. intros k. rewrite Hpar. apply given_alter.
  - by rewrite Hpar, lookup_alter_eq, Hp.
Qed.

Lemma delete_grant_run w identity id_ record parent p (i : Z) :
  manages C w identity id_ record parent p ->
  0 <= i < Z.of_nat (length (grants p)) ->
  delete_grant C identity id_ i w = (inr true, after_delete_grant record parent p i w).
Proof.
  intros Hm Hi. destruct (lookup_inside (grants p) i Hi) as [g Hg].
  unfold delete_grant. rewrite (enter_method _ _ _ _ _ _ _ Hm).
  rewrite (bounds_check_inside _ _ Hi).
  unfold lift, PyList.pop. rewrite (position_inside _ _ Hi), Hg.
  unfold bind at 1. unfold bind at 1. unfold update_parent at 1, modify at 1.
  unfold bind at 1. by rewrite commit_and_index_run.
Qed.

Lemma read_grant_outside w identity id_ record parent p (i : Z) :
  manages C w identity id_ record parent p ->
  ¬ (0 <= i < Z.of_nat (length (grants p))) ->
  read_grant C identity id_ i w = (inl (LookupError (pretty i)), w).
Proof.
  intros Hm Hi. unfold read_grant. rewrite (enter_method _ _ _ _ _ _ _ Hm).
  by rewrite (bounds_check_outside _ _ Hi).
Qed.

Lemma read_grant_inside w identity id_ record parent p (i : Z) g :
  manages C w identity id_ record parent p ->
  0 <= i < Z.of_nat (length (grants p)) ->
  grants p !! Z.to_nat i = Some g ->
  read_grant C identity id_ i w = (inr g, w).
Proof.
  intros Hm Hi Hg. unfold read_grant. rewrite (enter_method _ _ _ _ _ _ _ Hm).
  rewrite (bounds_check_inside _ _ Hi).
  unfold lift, PyList.getitem. by rewrite (position_inside _ _ Hi), Hg.
Qed.

Lemma delete_grant_outside w identity id_ record parent p (i : Z) :
  manages C w identity id_ record parent p ->
  ¬ (0 <= i < Z.of_nat (length (grants p))) ->
  delete_grant C identity id_ i w = (inl (LookupError (pretty i)), w).
Proof.
  intros Hm Hi. unfold delete_grant. rewrite (enter_method _ _ _ _ _ _ _ Hm).
  by rewrite (bounds_check_outside _ _ Hi).
Qed.

(** C7. For a parent whose grant sequence has length n, [read_grant] and
    [delete_grant] at index i raise the not-found error [LookupError] exactly
    when i is outside [0, n): outside, both raise it and leave the store alone;
    inside, [read_grant] returns the grant stored at position i and
    [delete_grant] succeeds and removes it: the grant sequence stored
    afterwards is one shorter, holds below i what it held, and holds from i on
    what was one position further; links and owner of the parent are as
    before and the commit is registered. *)
Theorem grant_index_bounds w identity id_ record parent p (i : Z) :
  manages C w identity id_ record parent p ->
  let n := Z.of_nat (length (grants p)) in
  (¬ (0 <= i < n) ->
     read_grant C identity id_ i w = (inl (LookupError (pretty i)), w)
     ∧ delete_grant C identity id_ i w = (inl (LookupError (pretty i)), w))
  ∧ (0 <= i < n ->
     ∃ g w' p', grants p !! Z.to_nat i = Some g
       ∧ read_grant C identity id_ i w = (inr g, w)
       ∧ delete_grant C identity id_ i w = (inr true, w')
       ∧ parents w' !! parent = Some p'
       ∧ length (grants p') = (length (grants p) - 1)%nat
       ∧ (∀ j, (j < Z.to_nat i)%nat -> grants p' !! j = grants p !! j)
       ∧ (∀ j, (Z.to_nat i <= j)%nat -> grants p' !! j = grants p !! S j)
       ∧ links p' = links p ∧ owner p' = owner p
       ∧ RecordCommitOp_parent parent ∈ uow w').
Proof.
  intros Hm n. subst n. split; intros Hi.
  - split; [by eapply read_grant_outside | by eapply delete_grant_outside].
  - destruct (lookup_inside (grants p) i Hi) as [g Hg].
    exists g, (after_delete_grant record parent p i w),
      (set_grants (fun _ => delete (Z.to_nat i) (grants p)) p).
    split; [done|]. split; [by eapply read_grant_inside|].
    split; [by eapply delete_grant_run|].
    destruct Hm as (_ & Hp & _).
    unfold after_delete_grant, set_uow, set_parents. cbn [parents uow].
    split; [by rewrite lookup_alter_eq, Hp|].
    unfold set_grants. cbn [grants links owner].
    split; [by apply length_delete; rewrite Hg|].
    split; [intros j Hj; by apply list_lookup_delete_lt|].
    split; [intros j Hj; by apply list_lookup_delete_ge|].
    split; [done|]. split; [done|].
    apply elem_of_app. right. unfold commit_ops. apply elem_of_cons. by left.
Qed.

(** C8. For a valid index i, [delete_grant] at i followed by [read_grant] at
    i returns the grant that was stored at i+1 before the deletion, and raises
    the not-found error if i was the last index. *)
Theorem delete_then_read_grant w identity id_ record parent p (i : Z) :
  manages C w identity id_ record parent p ->
  0 <= i < Z.of_nat (length (grants p)) ->
  permits C (snd (delete_grant C identity id_ i w)) identity "manage" record = true ->
  let w' := snd (delete_grant C identity id_ i w) in
  fst (delete_grant C identity id_ i w) = inr true
  ∧ (i + 1 < Z.of_nat (length (grants p)) ->
       ∃ g, grants p !! Z.to_nat (i + 1) = Some g
            ∧ read_grant C identity id_ i w' = (inr g, w'))
  ∧ (i + 1 = Z.of_nat (length (grants p)) ->
       read_grant C identity id_ i w' = (inl (LookupError (pretty i)), w')).
Proof.
  intros Hm Hi. rewrite (delete_grant_run _ _ _ _ _ _ _ Hm Hi). simpl fst. simpl snd.
  intros Hperm w'. split; [done|].
  assert (Hm' : manages C w' identity id_ record parent
                  (set_grants (fun _ => delete (Z.to_nat i) (grants p)) p)).
  { eapply manages_after; eauto. }
  destruct (lookup_inside (grants p) i Hi) as [g0 Hg0].
  assert (Hlen : length (delete (Z.to_nat i) (grants p)) = (length (grants p) - 1)%nat).
  { apply length_delete. eauto. }
  split.
  - intros Hlt.
    destruct (lookup_inside (grants p) (i + 1) ltac:(lia)) as [g Hg].
    exists g. split; [done|].
    eapply read_grant_inside; [exact Hm'| simpl; lia |].
    simpl. rewrite list_lookup_delete_ge by lia.
    by replace (S (Z.to_nat i)) with (Z.to_nat (i + 1)) by lia.
  - intros Hlast. eapply read_grant_outside; [exact Hm'|]. simpl. lia.
Qed.

Lemma update_grant_run w identity id_ record parent p (i : Z) (k : nat) old_grant
  data (partial : bool) loaded o pm st si :
  manages C w identity id_ record parent p ->
  PyList.position (length (grants p)) i = Some k ->
  grants p !! k = Some old_grant ->
  schema_grant C (if partial then partial_data old_grant data else data) = inr loaded ->
  g_origin loaded = Some o ->
  g_permission loaded = Some pm ->
  g_subject loaded = Some (mk_SubjectData (Some st) (Some si)) ->
  subject_exists C st si = true ->
  update_grant C identity id_ i data partial w
  = (inr (mk_Grant st si pm o), after_update_grant record parent p k (mk_Grant st si pm o) w).
Proof.
  intros Hm Hk Hold Hload Ho Hpm Hsub Hex.
  unfold update_grant. rewrite (enter_method _ _ _ _ _ _ _ Hm).
  destruct Hm as (_ & Hp & _).
  cbv [bind lift ret raise try_except getkey grant_create update_parent modify parent_obj
       PyList.getitem PyList.setitem].
  rewrite Hk, Hold, Hload, Ho, Hpm, Hsub. cbn [s_type s_id]. rewrite Hex. cbn [andb negb].
  by rewrite Hp, Hk, commit_and_index_run.
Qed.

Lemma update_grant_beyond w identity id_ record parent p (i : Z) data (partial : bool) :
  manages C w identity id_ record parent p ->
  Z.of_nat (length (grants p)) <= i ->
  update_grant C identity id_ i data partial w = (inl IndexError, w).
Proof.
  intros Hm Hi. unfold update_grant. rewrite (enter_method _ _ _ _ _ _ _ Hm).
  unfold lift at 1, PyList.getitem. by rewrite position_outside by lia.
Qed.

(** C10. [update_grant] does not check its index against [0, n) as
    [read_grant] and [delete_grant] do.  For a negative index i with
    -n <= i < 0, which the other two reject as not found, it reads the grant
    at position n+i and, when the payload validates and the subject resolves,
    replaces that position with the new grant and returns it: the grant
    sequence stored afterwards has the same length, holds the new grant at
    position n+i and is unchanged at every other position, and links and owner
    of the parent are as before.  For i >= n the failure is the [IndexError]
    of the sequence access itself, not the [LookupError] of the bounds
    check. *)
Theorem update_grant_unchecked_index w identity id_ record parent p (i : Z) data
  (partial : bool) :
  manages C w identity id_ record parent p ->
  let n := Z.of_nat (length (grants p)) in
  (- n <= i < 0 ->
     read_grant C identity id_ i w = (inl (LookupError (pretty i)), w)
     ∧ delete_grant C identity id_ i w = (inl (LookupError (pretty i)), w)
     ∧ ∃ old_grant, grants p !! Z.to_nat (n + i) = Some old_grant
         ∧ ∀ loaded o pm st si,
             schema_grant C (if partial then partial_data old_grant data else data)
               = inr loaded ->
             g_origin loaded = Some o ->
             g_permission loaded = Some pm ->
             g_subject loaded = Some (mk_SubjectData (Some st) (Some si)) ->
             subject_exists C st si = true ->
             ∃ w' p', update_grant C identity id_ i data partial w
                        = (inr (mk_Grant st si pm o), w')
                      ∧ parents w' !! parent = Some p'
                      ∧ length (grants p') = length (grants p)
                      ∧ grants p' !! Z.to_nat (n + i) = Some (mk_Grant st si pm o)
                      ∧ (∀ j, j ≠ Z.to_nat (n + i) -> grants p' !! j = grants p !! j)
                      ∧ links p' = links p ∧ owner p' = owner p
                      ∧ RecordCommitOp_parent parent ∈ uow w')
  ∧ (n <= i ->
       update_grant C identity id_ i data partial w = (inl IndexError, w)
       ∧ read_grant C identity id_ i w = (inl (LookupError (pretty i)), w)
       ∧ delete_grant C identity id_ i w = (inl (LookupError (pretty i)), w)).
Proof.
  intros Hm n. subst n. split; intros Hi.
  - split; [eapply read_grant_outside; [done|lia]|].
    split; [eapply delete_grant_outside; [done|lia]|].
    destruct (lookup_inside (grants p) (Z.of_nat (length (grants p)) + i) ltac:(lia))
      as [old_grant Hold].
    exists old_grant. split; [done|].
    intros loaded o pm st si Hload Ho Hpm Hsub Hex.
    set (k := Z.to_nat (Z.of_nat (length (grants p)) + i)) in *.
    exists (after_update_grant record parent p k (mk_Grant st si pm o) w),
      (set_grants (fun _ => <[k := mk_Grant st si pm o]> (grants p)) p).
    split.
    { eapply update_grant_run; eauto using position_negative. }
    destruct Hm as (_ & Hp & _).
    unfold after_update_grant, set_uow, set_parents. cbn [parents uow].
    split; [by rewrite lookup_alter_eq, Hp|].
    unfold set_grants. cbn [grants links owner].
    split; [by apply length_insert|].
    split; [apply list_lookup_insert_eq; by eapply lookup_lt_Some|].
    split; [intros j Hj; by apply list_lookup_insert_ne|].
    split; [done|]. split; [done|].
    apply elem_of_app. right. unfold commit_ops. apply elem_of_cons. by left.
  - split; [by eapply update_grant_beyond|].
    split; [eapply read_grant_outside; [done|lia]|].
    eapply delete_grant_outside; [done|lia].
Qed.

(** ** Secret links *)

(** Validation of the expiration of a new link. *)
Lemma validate_create_spec (value : option datetime) w :
  _validate_secret_link_expires_at C value true None w
  = match value with
    | None => (inr None, w)
    | Some d =>
        if expiry_instant d <? utc_clock C (ticks w)
        then (inl future_error, set_ticks S w)
        else (inr (Some (naive (expiry_instant d))), set_ticks S w)
    end.
Proof.
  unfold _validate_secret_link_expires_at. destruct value as [d|]; [|done].
  cbv [bind lift ret raise utcnow dt_lt to_utc_naive naive utcoffset wall expiry_instant].
  by destruct (_ <? _).
Qed.

(** Validation of the expiration in an update of [link], on the three shapes
    of the payload: key absent, key present with null, key present with a
    datetime.  The clock is read once for the first check and once more for
    the last. *)
Lemma validate_update_spec (field : option (option datetime)) link w :
  _validate_secret_link_expires_at C (mjoin field) (given field) (Some link) w
  = match field with
    | None => (inr None, w)
    | Some None =>
        if given (expires_at link) then (inl postpone_error, w) else (inr None, w)
    | Some (Some d) =>
        let t := expiry_instant d in
        if t <? utc_clock C (ticks w) then (inl future_error, set_ticks S w)
        else if match expires_at link with Some old => old <? t | None => false end
             then (inl postpone_error, set_ticks S w)
             else if t <? utc_clock C (S (ticks w))
                  then (inl future_error, set_ticks S (set_ticks S w))
                  else (inr (Some (naive t)), set_ticks S (set_ticks S w))
    end.
Proof.
  unfold _validate_secret_link_expires_at. destruct field as [[d|]|]; simpl.
  - cbv [bind lift ret raise utcnow dt_lt dt_gt to_utc_naive naive utcoffset wall
         expiry_instant given negb andb orb].
    destruct (_ <? utc_clock C (ticks w)); [done|].
    destruct (expires_at link) as [old|].
    + destruct (old <? _); [done|]. cbn [ticks set_ticks].
      by destruct (_ <? utc_clock C (S (ticks w))).
    + cbn [ticks set_ticks]. by destruct (_ <? utc_clock C (S (ticks w))).
  - cbv [bind ret raise]. by destruct (expires_at link).
  - done.
Qed.

(** Entering a method up to the permission check. *)
Lemma enter_gate {A : Type} w identity id_ record parent p
  (k : RecordEntry -> nat -> M A) :
  manages C w identity id_ record parent p ->
  bind (get_parent_and_record_or_draft id_)
    (fun rp => let '(record, parent) := rp in
               bind (require_permission C identity "manage" record)
                 (fun _ => k record parent)) w
  = k record parent w.
Proof.
  intros (Hr & Hp & Hm). unfold bind at 1. rewrite Hr.
  unfold bind at 1, require_permission. by rewrite Hm.
Qed.

Lemma fetch_link_run w parent p link_id_ idx link :
  parents w !! parent = Some p -> has_link p link_id_ idx link ->
  fetch_link parent link_id_ w = (inr (idx, link), w).
Proof.
  intros Hp [Hi Hl]. unfold fetch_link.
  cbv [bind parent_obj lift ret PyList.getitem]. rewrite Hp, Hi.
  rewrite position_inside.
  - by rewrite Nat2Z.id, Hl.
  - apply lookup_lt_Some in Hl. lia.
Qed.

Lemma update_secret_link_run w identity id_ record parent p link_id_ idx link data loaded :
  manages C w identity id_ record parent p ->
  has_link p link_id_ idx link ->
  schema_secret_link C data = inr loaded ->
  update_secret_link C identity id_ link_id_ data w
  = match _validate_secret_link_expires_at C (mjoin (d_expires_at loaded))
            (given (d_expires_at loaded)) (Some link) w with
    | (inl e, w1) => (inl e, w1)
    | (inr value, w1) =>
        (inr (updated_link link loaded value),
         after_update_link record parent idx (updated_link link loaded value) w1)
    end.
Proof.
  intros Hm Hl Hs. unfold update_secret_link. rewrite (enter_gate _ _ _ _ _ _ _ Hm).
  destruct Hm as (_ & Hp & _).
  unfold bind at 1. rewrite (fetch_link_run _ _ _ _ _ _ Hp Hl).
  unfold bind at 1, lift at 1. rewrite Hs.
  unfold bind at 1.
  destruct (_validate_secret_link_expires_at _ _ _ _ _) as [[e|value] w1]; [done|].
  cbv [bind update_parent modify]. by rewrite commit_and_index_run.
Qed.

(** C1 (as amended).  In an update of an existing link, the "cannot postpone
    expiration" error is raised when the payload sets [expires_at] to null
    while the link has an expiration, and when it sets an instant strictly
    later than the link's expiration that is not before the current time; a
    later instant that is already past is rejected by the "must be set to the
    future" error instead.  An update that omits [expires_at], that targets a
    link without expiration, or that sets an instant not later than the
    link's expiration, is never rejected by the postpone rule. *)
Theorem postpone_rule w identity id_ record parent p link_id_ idx link data loaded :
  manages C w identity id_ record parent p ->
  has_link p link_id_ idx link ->
  schema_secret_link C data = inr loaded ->
  let now := utc_clock C (ticks w) in
  let outcome := fst (update_secret_link C identity id_ link_id_ data w) in
  (d_expires_at loaded = Some None -> given (expires_at link) = true ->
     outcome = inl postpone_error)
  ∧ (∀ d old, d_expires_at loaded = Some (Some d) -> expires_at link = Some old ->
       old < expiry_instant d ->
       (now <= expiry_instant d -> outcome = inl postpone_error)
       ∧ (expiry_instant d < now -> outcome = inl future_error))
  ∧ (d_expires_at loaded = None
     ∨ expires_at link = None
     ∨ (∃ d old, d_expires_at loaded = Some (Some d) ∧ expires_at link = Some old
                 ∧ expiry_instant d <= old) ->
     outcome ≠ inl postpone_error).
Proof.
  intros Hm Hl Hs now outcome. subst now outcome.
  rewrite (update_secret_link_run _ _ _ _ _ _ _ _ _ _ _ Hm Hl Hs), validate_update_spec.
  split; [|split].
  - intros -> ->. done.
  - intros d old -> -> Hlt. cbv zeta. split; intros Hnow.
    + destruct (Z.ltb_spec (expiry_instant d) (utc_clock C (ticks w))); [lia|].
      destruct (Z.ltb_spec old (expiry_instant d)); [done|lia].
    + by destruct (Z.ltb_spec (expiry_instant d) (utc_clock C (ticks w))); [|lia].
  - intros [->|[Hnone|(d & old & -> & Hold & Hle)]]; [done| |].
    + rewrite Hnone. destruct (d_expires_at loaded) as [[d|]|]; cbv zeta; [|done..].
      destruct (_ <? _); [done|]. by destruct (_ <? _).
    + rewrite Hold. cbv zeta.
      destruct (_ <? utc_clock C (ticks w)); [done|].
      destruct (Z.ltb_spec old (expiry_instant d)); [lia|].
      by destruct (_ <? _).
Qed.


Lemma create_secret_link_run w identity id_ record parent p data loaded :
  manages C w identity id_ record parent p ->
  schema_secret_link C data = inr loaded ->
  create_secret_link C identity id_ data w
  = match _validate_secret_link_expires_at C (mjoin (d_expires_at loaded)) true None w with
    | (inl e, w1) => (inl e, w1)
    | (inr value, w1) =>
        match d_permission loaded with
        | None => (inl required_error, w1)
        | Some level =>
            if bool_decide (level ∈ allowed_levels C)
            then (inr (created_link w1 level loaded value),
                  after_create_link record parent (created_link w1 level loaded value) w1)
            else (inl invalid_level_error, w1)
        end
    end.
Proof.
  intros Hm Hs. unfold create_secret_link. rewrite (enter_gate _ _ _ _ _ _ _ Hm).
  unfold bind at 1, lift at 1. rewrite Hs. unfold bind at 1.
  destruct (_validate_secret_link_expires_at _ _ _ _ _) as [[e|value] w1]; [done|].
  destruct (d_permission loaded) as [level|]; [|done].
  unfold bind at 1, try_except, links_create.
  destruct (bool_decide (level ∈ allowed_levels C)); [|done].
  cbv [bind get_world modify update_parent ret]. by rewrite commit_and_index_run.
Qed.

(** C3 (as amended).  A supplied [expires_at] that lies strictly before the
    current UTC time is rejected by [create_secret_link] and by
    [update_secret_link] with the "must be set to the future" error; hence
    every accepted value is not before the current time.  A value equal to the
    current time is accepted: the bound is not strict. *)
Theorem accepted_expiration_bound w identity id_ record parent p data loaded d :
  manages C w identity id_ record parent p ->
  schema_secret_link C data = inr loaded ->
  d_expires_at loaded = Some (Some d) ->
  let now := utc_clock C (ticks w) in
  let t := expiry_instant d in
  (t < now ->
     fst (create_secret_link C identity id_ data w) = inl future_error
     ∧ ∀ link_id_ idx link, has_link p link_id_ idx link ->
         fst (update_secret_link C identity id_ link_id_ data w) = inl future_error)
  ∧ (∀ link w', create_secret_link C identity id_ data w = (inr link, w') ->
       now <= t ∧ expires_at link = Some t)
  ∧ (∀ link_id_ idx link link' w', has_link p link_id_ idx link ->
       update_secret_link C identity id_ link_id_ data w = (inr link', w') ->
       now <= t ∧ expires_at link' = Some t).
Proof.
  intros Hm Hs Hd now t. subst now t. split; [|split].
  - intros Hlt. split.
    + rewrite (create_secret_link_run _ _ _ _ _ _ _ _ Hm Hs), validate_create_spec, Hd.
      simpl. by destruct (Z.ltb_spec (expiry_instant d) (utc_clock C (ticks w))); [|lia].
    + intros link_id_ idx link Hl.
      rewrite (update_secret_link_run _ _ _ _ _ _ _ _ _ _ _ Hm Hl Hs),
        validate_update_spec, Hd.
      cbv zeta. by destruct (Z.ltb_spec (expiry_instant d) (utc_clock C (ticks w))); [|lia].
  - intros link w'.
    rewrite (create_secret_link_run _ _ _ _ _ _ _ _ Hm Hs), validate_create_spec, Hd.
    simpl. destruct (Z.ltb_spec (expiry_instant d) (utc_clock C (ticks w))); [done|].
    destruct (d_permission loaded) as [level|]; [|done].
    destruct (bool_decide _); [|done]. by intros [= <- <-].
  - intros link_id_ idx link link' w' Hl.
    rewrite (update_secret_link_run _ _ _ _ _ _ _ _ _ _ _ Hm Hl Hs),
      validate_update_spec, Hd.
    cbv zeta. destruct (Z.ltb_spec (expiry_instant d) (utc_clock C (ticks w))); [done|].
    destruct (match expires_at link with Some _ => _ | None => _ end); [done|].
    destruct (_ <? _); [done|]. by intros [= <- <-].
Qed.

(** C9 (as amended).  [create_secret_link] fails with a ValidationError when
    the validated payload has no "permission" field or asks for a level outside
    the allowed set; no link is added to the parent's links and nothing is
    registered with the unit of work.  When the expiration of the payload
    passes its check, the error is "An access permission level is required" in
    the first case and "Invalid access permission level." in the second; when
    the expiration lies in the past, the error is the one of the expiration
    check, which comes first. *)
Theorem create_secret_link_permission_errors w identity id_ record parent p data loaded :
  manages C w identity id_ record parent p ->
  schema_secret_link C data = inr loaded ->
  d_permission loaded = None
  ∨ (∃ level, d_permission loaded = Some level ∧ level ∉ allowed_levels C) ->
  ∃ msg field w',
    create_secret_link C identity id_ data w = (inl (ValidationError msg field), w')
    ∧ parents w' = parents w
    ∧ uow w' = uow w
    ∧ (expiration_passes C w loaded ->
         (d_permission loaded = None -> msg = msg_required ∧ field = "permission")
         ∧ (is_Some (d_permission loaded) ->
              msg = msg_invalid_level ∧ field = "permission"))
    ∧ (¬ expiration_passes C w loaded -> msg = msg_future ∧ field = "expires_at").
Proof.
  intros Hm Hs Hperm.
  rewrite (create_secret_link_run _ _ _ _ _ _ _ _ Hm Hs), validate_create_spec.
  unfold expiration_passes.
  destruct (mjoin (d_expires_at loaded)) as [d|].
  - destruct (Z.ltb_spec (expiry_instant d) (utc_clock C (ticks w))) as [Hpast|Hok].
    + eexists _, _, _. split; [reflexivity|]. do 2 (split; [done|]). split.
      * intros Hpass. specialize (Hpass d eq_refl). lia.
      * done.
    + assert (Hpass : ¬ ¬ ∀ d0, Some d = Some d0 -> utc_clock C (ticks w) <= expiry_instant d0).
      { intros Hfail. apply Hfail. by intros ? [= <-]. }
      destruct Hperm as [Hnone|(level & Hlevel & Hnot)].
      * rewrite Hnone. eexists _, _, _. split; [reflexivity|]. do 2 (split; [done|]).
        split; [|done]. intros _. split; [done|]. by intros [? ?].
      * rewrite Hlevel, bool_decide_eq_false_2 by done.
        eexists _, _, _. split; [reflexivity|]. do 2 (split; [done|]).
        split; [|done]. intros _. split; [done|]. done.
  - assert (Hpass : ¬ ¬ ∀ d0 : datetime, None = Some d0 ->
                          utc_clock C (ticks w) <= expiry_instant d0).
    { intros Hfail. by apply Hfail. }
    destruct Hperm as [Hnone|(level & Hlevel & Hnot)].
    + rewrite Hnone. eexists _, _, _. split; [reflexivity|]. do 2 (split; [done|]).
      split; [|done]. intros _. split; [done|]. by intros [? ?].
    + rewrite Hlevel, bool_decide_eq_false_2 by done.
      eexists _, _, _. split; [reflexivity|]. do 2 (split; [done|]).
      split; [|done]. intros _. split; [done|]. done.
Qed.

(** ** Access requests *)

(** C4. When the identity holds both "read" and "read_files" on the record,
    [create_user_access_request] fails with PermissionDeniedError and leaves
    the store, hence the request table, untouched; whenever the call does not
    end in PermissionDeniedError, the identity has "read" and lacks
    "read_files". *)
Theorem user_access_request_gate w identity id_ record message :
  records w !! id_ = Some record ->
  (permits C w identity "read" record = true ->
   permits C w identity "read_files" record = true ->
     create_user_access_request C identity id_ message w
     = (inl (PermissionDeniedError None), w))
  ∧ ((∀ action, fst (create_user_access_request C identity id_ message w)
                ≠ inl (PermissionDeniedError action)) ->
     permits C w identity "read" record = true
     ∧ permits C w identity "read_files" record = false).
Proof.
  intros Hrec. unfold create_user_access_request.
  cbv [bind pid_resolve try_except require_permission ret raise]. rewrite Hrec.
  destruct (permits C w identity "read" record) eqn:Hread.
  - destruct (permits C w identity "read_files" record) eqn:Hfiles;
      cbn [negb is_PermissionDeniedError].
    + split; [done|]. intros Hno. by destruct (Hno None).
    + split; [done|]. done.
  - split; [done|]. intros Hno. by destruct (Hno (Some "read")).
Qed.

Lemma execute_action_submit_new w rs request content :
  requests w = rs ++ [request] ->
  (∀ r, r ∈ rs -> request_id r ≠ request_id request) ->
  execute_action_submit (request_id request) content w
  = (inr (submitted request content),
     set_requests (fun rs' => <[length rs := submitted request content]> rs') w).
Proof.
  intros Hw Hfresh. unfold execute_action_submit, bind at 1, get_world.
  assert (Hfind : list_find (fun r => request_id r = request_id request) (requests w)
                  = Some (length rs, request)).
  { rewrite Hw. apply list_find_Some. split; [|split; [done|]].
    - by rewrite lookup_app_r, Nat.sub_diag by lia.
    - intros j y Hj Hlt. rewrite lookup_app_l in Hj by done.
      apply Hfresh. by eapply list_elem_of_lookup_2. }
  by rewrite Hfind.
Qed.

Lemma create_user_access_request_run w identity id_ record p message :
  may_request C w identity id_ record ->
  parents w !! parent_key record = Some p ->
  fresh_request_id w ->
  let colliding := open_requests (RefUser (identity_id identity)) id_
                     (UserAccessRequest_type_id C) (requests w) in
  let request := user_request C w identity record p message in
  let content := or_string message "" in
  create_user_access_request C identity id_ message w
  = if bool_decide (colliding = []) then
      if create_errors C (payload request)
      then (inr request, set_requests (fun rs => rs ++ [request]) w)
      else (inr (submitted request content),
            set_requests (fun rs => <[length (requests w) := submitted request content]> rs)
              (set_requests (fun rs => rs ++ [request]) w))
    else (inl (DuplicateAccessRequestError (request_id <$> colliding)), w).
Proof.
  intros (Hrec & Hread & Hfiles) Hp Hfresh colliding request content.
  unfold create_user_access_request.
  cbv [bind pid_resolve try_except require_permission ret raise get_world parent_obj
       requests_create modify].
  rewrite Hrec, Hread, Hfiles. cbn [negb is_PermissionDeniedError]. fold colliding.
  destruct (bool_decide (colliding = [])); cbn [negb]; [|done].
  rewrite Hrec. cbv beta iota. rewrite Hp. cbv beta iota. fold request.
  change (create_errors C _) with (create_errors C (payload request)).
  destruct (create_errors C (payload request)); [done|].
  change (pretty (length (requests w))) with (request_id request).
  erewrite execute_action_submit_new; [done|done|]. exact Hfresh.
Qed.

(** The colliding requests are the open requests of the given type that
    [creator] made on the record. *)
Lemma elem_of_open_requests creator topic_ type_ rs r :
  r ∈ open_requests creator topic_ type_ rs
  ↔ r ∈ rs ∧ created_by r = creator ∧ topic r = topic_
    ∧ has_data r = true ∧ type_id r = type_ ∧ is_open r = true.
Proof.
  unfold open_requests. rewrite !list_elem_of_filter. tauto.
Qed.

Lemma open_requests_app creator topic_ type_ rs rs' :
  open_requests creator topic_ type_ (rs ++ rs')
  = open_requests creator topic_ type_ rs ++ open_requests creator topic_ type_ rs'.
Proof. unfold open_requests. by rewrite !filter_app. Qed.

Lemma open_requests_singleton creator topic_ type_ r :
  created_by r = creator -> topic r = topic_ -> has_data r = true ->
  type_id r = type_ -> is_open r = true ->
  open_requests creator topic_ type_ [r] = [r].
Proof.
  intros. unfold open_requests.
  rewrite (filter_cons_True (fun r => created_by r = creator ∧ topic r = topic_)) by done.
  rewrite filter_nil.
  rewrite (filter_cons_True (fun r => has_data r = true ∧ type_id r = type_)) by done.
  rewrite filter_nil.
  by rewrite (filter_cons_True (fun r => is_open r = true)) by done.
Qed.

Lemma create_user_access_request_duplicate w identity id_ record message :
  may_request C w identity id_ record ->
  let colliding := open_requests (RefUser (identity_id identity)) id_
                     (UserAccessRequest_type_id C) (requests w) in
  colliding ≠ [] ->
  create_user_access_request C identity id_ message w
  = (inl (DuplicateAccessRequestError (request_id <$> colliding)), w).
Proof.
  intros (Hrec & Hread & Hfiles) colliding Hdup.
  unfold create_user_access_request.
  cbv [bind pid_resolve try_except require_permission ret raise get_world].
  rewrite Hrec, Hread, Hfiles. cbn [negb is_PermissionDeniedError]. fold colliding.
  by rewrite bool_decide_eq_false_2.
Qed.

(** C5. While an open user access request of the same user on the same
    record exists, [create_user_access_request] fails with
    DuplicateAccessRequestError carrying the ids of the colliding open
    requests, and stores nothing.  When no such request is open (none was
    made, or all were closed), the call stores a new request of that user on
    the record and returns it; once that request is submitted, a further call
    by the same user fails with DuplicateAccessRequestError carrying its id. *)
Theorem duplicate_user_access_request w identity id_ record p message :
  may_request C w identity id_ record ->
  parents w !! parent_key record = Some p ->
  fresh_request_id w ->
  let colliding := open_requests (RefUser (identity_id identity)) id_
                     (UserAccessRequest_type_id C) (requests w) in
  (∀ r, r ∈ colliding
        ↔ r ∈ requests w ∧ created_by r = RefUser (identity_id identity) ∧ topic r = id_
          ∧ has_data r = true ∧ type_id r = UserAccessRequest_type_id C
          ∧ is_open r = true)
  ∧ (colliding ≠ [] ->
       create_user_access_request C identity id_ message w
       = (inl (DuplicateAccessRequestError (request_id <$> colliding)), w))
  ∧ (colliding = [] ->
       ∃ r w', create_user_access_request C identity id_ message w = (inr r, w')
         ∧ requests w' !! length (requests w) = Some r
         ∧ length (requests w') = S (length (requests w))
         ∧ created_by r = RefUser (identity_id identity)
         ∧ topic r = pid record
         ∧ type_id r = UserAccessRequest_type_id C
         ∧ (is_open r = true -> pid record = id_ ->
            may_request C w' identity id_ record ->
            ∀ message',
              create_user_access_request C identity id_ message' w'
              = (inl (DuplicateAccessRequestError [request_id r]), w'))).
Proof.
  intros Hmay Hp Hfresh colliding. split; [|split].
  - intros r. apply elem_of_open_requests.
  - intros Hdup. by apply (create_user_access_request_duplicate w identity id_ record).
  - intros Hnone.
    rewrite (create_user_access_request_run _ _ _ _ _ _ Hmay Hp Hfresh).
    fold colliding. rewrite bool_decide_eq_true_2 by done.
    set (request := user_request C w identity record p message).
    destruct (create_errors C (payload request)).
    + exists request, (set_requests (fun rs => rs ++ [request]) w).
      split; [done|]. cbn [requests set_requests].
      split; [by rewrite lookup_app_r, Nat.sub_diag by lia|].
      split; [rewrite length_app; simpl; lia|].
      do 3 (split; [done|]). intros Hopen. done.
    + set (r := submitted request (or_string message "")).
      exists r. eexists. split; [done|]. cbn [requests set_requests].
      assert (Hins : <[length (requests w) := r]> (requests w ++ [request])
                     = requests w ++ [r]).
      { rewrite insert_app_r_alt, Nat.sub_diag by lia. done. }
      rewrite Hins.
      split; [by rewrite lookup_app_r, Nat.sub_diag by lia|].
      split; [rewrite length_app; simpl; lia|].
      do 3 (split; [done|]).
      intros _ Hpid Hmay' message'.
      pose proof (create_user_access_request_duplicate _ identity id_ record message' Hmay')
        as Hdup.
      cbn [requests set_requests] in Hdup. rewrite Hins in Hdup.
      rewrite open_requests_app in Hdup. fold colliding in Hdup. rewrite Hnone in Hdup.
      rewrite open_requests_singleton in Hdup by done.
      apply Hdup. done.
Qed.

Lemma get_by_token_run token_ w :
  AccessRequestToken_get_by_token C token_ w = (inr (redeemable C w token_), set_ticks S w).
Proof. done. Qed.

Lemma redeemable_None w token_ :
  redeemable C w token_ = None
  ↔ ∀ t, t ∈ tokens w -> token t = token_ -> ¬ token_alive (utc_clock C (ticks w)) t.
Proof.
  unfold redeemable. split.
  - intros Hhead t Ht Htok Halive.
    destruct (filter _ (tokens w)) as [|t' l] eqn:Hf; [|done].
    assert (t ∈ filter (fun t => token t = token_ ∧ token_alive (utc_clock C (ticks w)) t)
                  (tokens w)) as Hin by (by apply list_elem_of_filter).
    rewrite Hf in Hin. by apply not_elem_of_nil in Hin.
  - intros Hall. destruct (filter _ (tokens w)) as [|t' l] eqn:Hf; [done|].
    assert (t' ∈ filter (fun t => token t = token_ ∧ token_alive (utc_clock C (ticks w)) t)
                   (tokens w)) as Hin by (rewrite Hf; left).
    apply list_elem_of_filter in Hin as [[Htok Halive] Hin]. by destruct (Hall t' Hin Htok).
Qed.

Lemma redeemable_Some w token_ t :
  redeemable C w token_ = Some t -> t ∈ tokens w ∧ token t = token_.
Proof.
  unfold redeemable. intros Hhead. apply head_Some_elem_of in Hhead.
  apply list_elem_of_filter in Hhead. tauto.
Qed.

Lemma create_guest_access_request_none w identity token_ :
  provides_authenticated_user identity = false ->
  redeemable C w token_ = None ->
  create_guest_access_request C identity token_ w = (inr None, set_ticks S w).
Proof.
  intros Hguest Hnone. unfold create_guest_access_request, create_guest_access_request_over.
  rewrite Hguest.
  unfold bind at 1. by rewrite get_by_token_run, Hnone.
Qed.

Lemma create_guest_access_request_run w identity token_ t record p :
  provides_authenticated_user identity = false ->
  redeemable C w token_ = Some t ->
  records w !! record_pid t = Some record ->
  parents w !! parent_key record = Some p ->
  open_requests (RefEmail (email t)) (record_pid t) (GuestAccessRequest_type_id C)
                (requests w) = [] ->
  create_guest_access_request C identity token_ w
  = create_and_submit C t record p (token_deleted t w).
Proof.
  intros Hguest Hsome Hrec Hp Hnone.
  unfold create_guest_access_request, create_guest_access_request_over. rewrite Hguest.
  unfold bind at 1. rewrite get_by_token_run, Hsome.
  unfold bind at 1, pid_resolve. cbn [records set_ticks]. rewrite Hrec.
  unfold bind at 1, get_world. cbn [requests set_ticks]. rewrite Hnone.
  rewrite bool_decide_eq_true_2 by done. cbn [negb].
  unfold bind at 1, parent_obj. cbn [parents set_ticks]. rewrite Hp.
  unfold bind at 1, AccessRequestToken_delete, modify. done.
Qed.

Lemma create_and_submit_run t record p w :
  fresh_request_id w ->
  let request := guest_request C w t record p in
  let content := guest_comment (full_name t) (email t)
                   (or_string (p_message (guest_payload t)) "") in
  create_and_submit C t record p w
  = if create_errors C (guest_payload t)
    then (inr (Some request), set_requests (fun rs => rs ++ [request]) w)
    else (inr (Some (submitted request content)),
          set_requests (fun rs => <[length (requests w) := submitted request content]> rs)
            (set_requests (fun rs => rs ++ [request]) w)).
Proof.
  intros Hfresh request content. unfold create_and_submit.
  cbv [bind requests_create get_world modify ret]. fold request.
  destruct (create_errors C (guest_payload t)); [done|].
  change (pretty (length (requests w))) with (request_id request).
  erewrite execute_action_submit_new; [done|done|]. exact Hfresh.
Qed.

(** With any requests service: when the token is valid, its record resolves
    and no open duplicate exists, the service is entered in the store that no
    longer holds the token, and what the service raises there is what the
    method raises. *)
Lemma create_guest_access_request_over_fails create submit w identity token_ t record p
  e w1 :
  provides_authenticated_user identity = false ->
  redeemable C w token_ = Some t ->
  records w !! record_pid t = Some record ->
  parents w !! parent_key record = Some p ->
  open_requests (RefEmail (email t)) (record_pid t) (GuestAccessRequest_type_id C)
                (requests w) = [] ->
  create (RefEmail (email t)) (guest_payload t) (GuestAccessRequest_type_id C) (owner p)
         (pid record) (token_deleted t w) = (inl e, w1) ->
  create_guest_access_request_over C create submit identity token_ w = (inl e, w1).
Proof.
  intros Hguest Hsome Hrec Hp Hnone Hfail. unfold create_guest_access_request_over.
  rewrite Hguest.
  unfold bind at 1. rewrite get_by_token_run, Hsome.
  unfold bind at 1, pid_resolve. cbn [records set_ticks]. rewrite Hrec.
  unfold bind at 1, get_world. cbn [requests set_ticks]. rewrite Hnone.
  rewrite bool_decide_eq_true_2 by done. cbn [negb].
  unfold bind at 1, parent_obj. cbn [parents set_ticks]. rewrite Hp.
  unfold bind at 1, AccessRequestToken_delete, modify.
  unfold bind at 1. unfold guest_payload, token_deleted in Hfail. by rewrite Hfail.
Qed.

(** C6 (as amended).  For a guest, [create_guest_access_request] returns
    [None] without raising, and without touching tokens, requests or the unit
    of work, when the token is unknown or expired.  On a valid token the
    outcome depends on the record and on the open requests.  When the record
    of the token does not resolve the call raises [PIDDoesNotExistError], and
    when an open guest request of the token's e-mail address on the record
    exists it raises [DuplicateAccessRequestError]; in both cases the token is
    kept.  When the record resolves and there is no such request, the token is
    deleted before the requests service is entered: whatever requests service
    is plugged in, a failure of its [create] is the failure of the call, in a
    store without the token; with the requests service as modelled the request
    is created, no token with that string is left, and a second redemption
    returns [None] and raises nothing. *)
Theorem guest_token_single_use w identity token_ :
  provides_authenticated_user identity = false ->
  ((∀ t, t ∈ tokens w -> token t = token_ -> ¬ token_alive (utc_clock C (ticks w)) t) ->
     create_guest_access_request C identity token_ w = (inr None, set_ticks S w))
  ∧ (∀ t, redeemable C w token_ = Some t ->
       (records w !! record_pid t = None ->
          create_guest_access_request C identity token_ w
          = (inl PIDDoesNotExistError, set_ticks S w))
       ∧ (∀ record, records w !! record_pid t = Some record ->
            let colliding := open_requests (RefEmail (email t)) (record_pid t)
                               (GuestAccessRequest_type_id C) (requests w) in
            (colliding ≠ [] ->
               create_guest_access_request C identity token_ w
               = (inl (DuplicateAccessRequestError (request_id <$> colliding)),
                  set_ticks S w))
            ∧ (colliding = [] ->
               ∀ p, parents w !! parent_key record = Some p ->
                 (∀ t', t' ∈ tokens (token_deleted t w) -> token t' ≠ token_)
                 ∧ (∀ create submit e w1,
                      create (RefEmail (email t)) (guest_payload t)
                             (GuestAccessRequest_type_id C) (owner p) (pid record)
                             (token_deleted t w) = (inl e, w1) ->
                      create_guest_access_request_over C create submit identity token_ w
                      = (inl e, w1))
                 ∧ (fresh_request_id w ->
                    ∃ r w',
                      create_guest_access_request C identity token_ w = (inr (Some r), w')
                      ∧ requests w' !! length (requests w) = Some r
                      ∧ created_by r = RefEmail (email t)
                      ∧ topic r = pid record
                      ∧ (∀ t', t' ∈ tokens w' -> token t' ≠ token_)
                      ∧ ∀ identity', provides_authenticated_user identity' = false ->
                          create_guest_access_request C identity' token_ w'
                          = (inr None, set_ticks S w'))))).
Proof.
  intros Hguest. split.
  { intros Hnone. apply create_guest_access_request_none; [done|].
    by apply redeemable_None. }
  intros t Hsome. split.
  { intros Hrec. unfold create_guest_access_request, create_guest_access_request_over.
    rewrite Hguest. unfold bind at 1. rewrite get_by_token_run, Hsome.
    unfold bind at 1, pid_resolve. cbn [records set_ticks]. by rewrite Hrec. }
  intros record Hrec colliding. split.
  { intros Hdup. unfold create_guest_access_request, create_guest_access_request_over.
    rewrite Hguest. unfold bind at 1. rewrite get_by_token_run, Hsome.
    unfold bind at 1, pid_resolve. cbn [records set_ticks]. rewrite Hrec.
    unfold bind at 1, get_world. cbn [requests set_ticks]. fold colliding.
    by rewrite bool_decide_eq_false_2. }
  subst colliding. intros Hdup p Hp.
  destruct (redeemable_Some _ _ _ Hsome) as [_ Htok].
  assert (Hgone : ∀ t', t' ∈ tokens (token_deleted t w) -> token t' ≠ token_).
  { intros t' Hin. unfold token_deleted in Hin. cbn [tokens set_tokens set_ticks] in Hin.
    apply list_elem_of_filter in Hin as [Hne _]. by rewrite <- Htok. }
  split; [done|]. split.
  { intros create submit e w1 Hfail.
    by eapply create_guest_access_request_over_fails. }
  intros Hfresh.
  rewrite (create_guest_access_request_run _ _ _ _ _ _ Hguest Hsome Hrec Hp Hdup).
  rewrite create_and_submit_run by exact Hfresh.
  change (requests (token_deleted t w)) with (requests w).
  set (request := guest_request C (token_deleted t w) t record p).
  set (content := guest_comment _ _ _).
  assert (Hins : <[length (requests w) := submitted request content]>
                   (requests w ++ [request])
                 = requests w ++ [submitted request content]).
  { rewrite insert_app_r_alt, Nat.sub_diag by lia. done. }
  assert (Hsecond : ∀ w', tokens w' = tokens (token_deleted t w) ->
            ∀ identity', provides_authenticated_user identity' = false ->
              create_guest_access_request C identity' token_ w'
              = (inr None, set_ticks S w')).
  { intros w' Hw' identity' Hguest'. apply create_guest_access_request_none; [done|].
    apply redeemable_None. intros t' Hin Htok'. rewrite Hw' in Hin.
    by destruct (Hgone t' Hin). }
  destruct (create_errors C (guest_payload t)).
  - exists request. eexists. split; [done|]. cbn [requests set_requests tokens].
    change (requests (token_deleted t w)) with (requests w).
    split; [by rewrite lookup_app_r, Nat.sub_diag by lia|].
    do 2 (split; [done|]). split; [exact Hgone|]. by apply Hsecond.
  - exists (submitted request content). eexists. split; [done|].
    cbn [requests set_requests tokens].
    change (requests (token_deleted t w)) with (requests w). rewrite Hins.
    split; [by rewrite lookup_app_r, Nat.sub_diag by lia|].
    do 2 (split; [done|]). split; [exact Hgone|]. by apply Hsecond.
Qed.

End Properties.

(** * The properties on the concrete repository *)

Module Scenario.
Import Demo.

Lemma manager_manages : manages demo w0 manager "r1" rec1 0 p0.
Proof. repeat split; reflexivity. Defined.

Lemma w0_fresh_request_id : fresh_request_id w0.
Proof.
  intros r Hin. apply list_elem_of_singleton in Hin. subst r. discriminate.
Defined.

(** Reading inside and outside the bounds, and deleting the first of the two
    grants: the sequence stored afterwards holds the second one only. *)
Lemma grant_index_bounds_witness :
  read_grant demo manager "r1" 1 w0 = (inr g2, w0)
  ∧ delete_grant demo manager "r1" 2 w0 = (inl (LookupError "2"), w0)
  ∧ ∃ w' p', delete_grant demo manager "r1" 0 w0 = (inr true, w')
             ∧ parents w' !! 0%nat = Some p'
             ∧ length (grants p') = 1%nat
             ∧ grants p' !! 0%nat = Some g2.
Proof.
  split; [|split].
  - destruct (grant_index_bounds demo w0 manager "r1" rec1 0%nat p0 1 manager_manages)
      as [_ Hin].
    destruct Hin as (g & w' & p' & Hg & Hread & _); [simpl; lia|].
    injection Hg as <-. exact Hread.
  - destruct (grant_index_bounds demo w0 manager "r1" rec1 0%nat p0 2 manager_manages)
      as [Hout _].
    apply Hout. simpl. lia.
  - destruct (grant_index_bounds demo w0 manager "r1" rec1 0%nat p0 0 manager_manages)
      as [_ Hin].
    destruct Hin as (g & w' & p' & _ & _ & Hdel & Hp' & Hlen & _ & Hshift & _); [simpl; lia|].
    exists w', p'. split; [exact Hdel|]. split; [exact Hp'|]. split; [exact Hlen|].
    rewrite (Hshift 0%nat); [reflexivity|simpl; lia].
Defined.

(** Deleting the first grant moves the second one to index 0. *)
Lemma delete_then_read_grant_witness :
  read_grant demo manager "r1" 0 (snd (delete_grant demo manager "r1" 0 w0))
  = (inr g2, snd (delete_grant demo manager "r1" 0 w0)).
Proof.
  destruct (delete_then_read_grant demo w0 manager "r1" rec1 0%nat p0 0 manager_manages)
    as (_ & Hshift & _); [simpl; lia | reflexivity |].
  destruct Hshift as (g & Hg & Hread); [simpl; lia|].
  injection Hg as <-. exact Hread.
Defined.

(** Index -1 replaces the last grant: the sequence stored afterwards holds
    the first grant and the new one. *)
Lemma update_grant_unchecked_index_witness :
  ∃ w' p',
    update_grant demo manager "r1" (-1) (mk_GrantData (Some "manage") None None) true w0
    = (inr (mk_Grant "user" "8" "manage" None), w')
    ∧ parents w' !! 0%nat = Some p'
    ∧ length (grants p') = 2%nat
    ∧ grants p' !! 0%nat = Some g1
    ∧ grants p' !! 1%nat = Some (mk_Grant "user" "8" "manage" None).
Proof.
  destruct (update_grant_unchecked_index demo w0 manager "r1" rec1 0%nat p0 (-1)
              (mk_GrantData (Some "manage") None None) true manager_manages)
    as [Hneg _].
  destruct Hneg as (_ & _ & old & Hold & Hupd); [simpl; lia|].
  injection Hold as <-.
  destruct (Hupd _ None "manage" "user" "8" eq_refl eq_refl eq_refl eq_refl eq_refl)
    as (w' & p' & Hrun & Hp' & Hlen & Hnew & Hothers & _).
  exists w', p'. split; [exact Hrun|]. split; [exact Hp'|]. split; [exact Hlen|].
  split; [|exact Hnew]. rewrite (Hothers 0%nat); [reflexivity|discriminate].
Defined.

(** Link "c" expires at 200: moving it to 300 is a postponement. *)
Lemma postpone_rule_witness :
  fst (update_secret_link demo manager "r1" "c" (expires 300) w0) = inl postpone_error.
Proof.
  destruct (postpone_rule demo w0 manager "r1" rec1 0%nat p0 "c" 2%nat l3
              (expires 300) (expires 300) manager_manages)
    as (_ & Hlater & _); [by split | reflexivity |].
  destruct (Hlater (naive 300) 200 eq_refl eq_refl) as [Hpost _]; [reflexivity|].
  apply Hpost. vm_compute. discriminate.
Defined.

(** Link "a" expired at 10; setting 50 at time 100 is later than 10, but the
    update is rejected by the future-date check, not by the postpone rule. *)
Lemma postpone_rule_counterexample :
  has_link p0 "a" 0 l1
  ∧ expires_at l1 = Some 10
  ∧ 10 < expiry_instant (naive 50)
  ∧ update_secret_link demo manager "r1" "a" (expires 50) w0
    = (inl future_error, set_ticks S w0)
  ∧ future_error ≠ postpone_error.
Proof.
  split; [by split|]. do 3 (split; [reflexivity|]). discriminate.
Qed.



(** An expiration of 50 at time 100 is rejected on creation. *)
Lemma accepted_expiration_bound_witness :
  fst (create_secret_link demo manager "r1" (view_until 50) w0) = inl future_error.
Proof.
  destruct (accepted_expiration_bound demo w0 manager "r1" rec1 0%nat p0
              (view_until 50) (view_until 50) (naive 50) manager_manages)
    as (Hpast & _); [reflexivity | reflexivity |].
  apply Hpast. reflexivity.
Defined.

(** An expiration equal to the current time, 100, is accepted on creation: the
    stored expiration is not strictly later than the time of validation. *)
Lemma accepted_expiration_bound_counterexample :
  utc_clock demo (ticks w0) = 100
  ∧ fst (create_secret_link demo manager "r1" (view_until 100) w0)
    = inr (mk_SecretLink "0" "view" None "" (Some 100) [])
  ∧ ¬ (utc_clock demo (ticks w0) < 100).
Proof. split; [reflexivity|]. split; [reflexivity|]. vm_compute. discriminate. Qed.

(** A payload without permission level. *)
Lemma create_secret_link_permission_errors_witness :
  ∃ msg field w',
    create_secret_link demo manager "r1" (expires 300) w0
    = (inl (ValidationError msg field), w')
    ∧ parents w' = parents w0 ∧ uow w' = uow w0.
Proof.
  destruct (create_secret_link_permission_errors demo w0 manager "r1" rec1 0%nat p0
              (expires 300) (expires 300) manager_manages)
    as (msg & field & w' & Hrun & Hparents & Huow & _); [reflexivity | by left |].
  by exists msg, field, w'.
Defined.

(** A level outside the allowed set together with a past expiration: the
    failure is the one of the expiration check. *)
Lemma create_secret_link_permission_errors_counterexample :
  ("admin" ∉ allowed_levels demo)
  ∧ create_secret_link demo manager "r1"
      (mk_LinkData (Some (Some (naive 50))) (Some "admin") None None None) w0
    = (inl future_error, set_ticks S w0)
  ∧ future_error ≠ invalid_level_error.
Proof.
  split; [|split; [reflexivity|discriminate]].
  unfold allowed_levels, demo. rewrite !not_elem_of_cons.
  repeat split; (discriminate || apply not_elem_of_nil).
Qed.

(** The manager already has file access and cannot request it. *)
Lemma user_access_request_gate_witness :
  create_user_access_request demo manager "r1" (Some "please") w0
  = (inl (PermissionDeniedError None), w0).
Proof.
  destruct (user_access_request_gate demo w0 manager "r1" rec1 (Some "please"))
    as [Hdenied _]; [reflexivity|].
  apply Hdenied; reflexivity.
Defined.

Lemma reader_may_request : may_request demo w0 reader "r1" rec1.
Proof. repeat split; reflexivity. Defined.

(** The reader's earlier request was declined: a new one is stored, and while
    it is open the next attempt collides with it. *)
Lemma duplicate_user_access_request_witness :
  ∃ r w', create_user_access_request demo reader "r1" (Some "please") w0 = (inr r, w')
    ∧ create_user_access_request demo reader "r1" (Some "again") w'
      = (inl (DuplicateAccessRequestError [request_id r]), w').
Proof.
  destruct (duplicate_user_access_request demo w0 reader "r1" rec1 p0 (Some "please")
              reader_may_request eq_refl w0_fresh_request_id)
    as (_ & _ & Hnew).
  destruct (Hnew eq_refl) as (r & w' & Hrun & Hr & _ & _ & _ & _ & Hsecond).
  exists r, w'. split; [exact Hrun|].
  injection Hrun as <- <-. apply Hsecond; [reflexivity | reflexivity |].
  repeat split; reflexivity.
Defined.

(** The guest's token is redeemed once; after that it resolves no more.  With
    a requests service that refuses the creation, the call fails and the token
    is gone all the same. *)
Lemma guest_token_single_use_witness :
  create_guest_access_request demo guest "unknown" w0 = (inr None, set_ticks S w0)
  ∧ (∃ r w', create_guest_access_request demo guest "tok" w0 = (inr (Some r), w')
       ∧ create_guest_access_request demo guest "tok" w' = (inr None, set_ticks S w'))
  ∧ create_guest_access_request_over demo
      (fun _ _ _ _ _ => raise (PermissionDeniedError None)) execute_action_submit
      guest "tok" w0
    = (inl (PermissionDeniedError None), token_deleted tok w0)
  ∧ tokens (token_deleted tok w0) = [].
Proof.
  destruct (guest_token_single_use demo w0 guest "unknown" eq_refl) as [Hnone _].
  destruct (guest_token_single_use demo w0 guest "tok" eq_refl) as [_ Hvalid].
  destruct (Hvalid tok eq_refl) as [_ Hresolves].
  destruct (Hresolves rec1 eq_refl) as [_ Hfree].
  destruct (Hfree eq_refl p0 eq_refl) as (_ & Hfails & Hcreated).
  split; [|split; [|split]].
  - apply Hnone. intros t Hin Htok. apply list_elem_of_singleton in Hin. by subst t.
  - destruct (Hcreated w0_fresh_request_id) as (r & w' & Hrun & _ & _ & _ & _ & Hsecond).
    exists r, w'. split; [exact Hrun|]. by apply Hsecond.
  - by apply Hfails.
  - reflexivity.
Defined.

(** The token "tok" is valid, but the guest has an open request on "r1": the
    redemption raises and keeps the token, and the second one raises again
    instead of returning [None]. *)
Lemma guest_token_single_use_counterexample :
  redeemable demo w_dup "tok" = Some tok
  ∧ create_guest_access_request demo guest "tok" w_dup
    = (inl (DuplicateAccessRequestError ["1"]), set_ticks S w_dup)
  ∧ tokens (set_ticks S w_dup) = [tok]
  ∧ requests (set_ticks S w_dup) = requests w_dup
  ∧ create_guest_access_request demo guest "tok" (set_ticks S w_dup)
    = (inl (DuplicateAccessRequestError ["1"]), set_ticks S (set_ticks S w_dup)).
Proof. repeat split; reflexivity. Qed.

(** The scenario of the specification, on link "b": an update introduces an
    expiration (300); removing it again is a postponement, and so is moving it
    to 400; moving it down to 250 is accepted. *)
Example link_lifecycle :
  let run := fun data w => update_secret_link demo manager "r1" "b" data w in
  let w1 := snd (run (expires 300) w0) in
  stored_expiration (fst (run (expires 300) w0)) = inr (Some 300)
  ∧ fst (run (mk_LinkData (Some None) None None None None) w1) = inl postpone_error
  ∧ fst (run (expires 400) w1) = inl postpone_error
  ∧ stored_expiration (fst (run (expires 250) w1)) = inr (Some 250).
Proof. repeat split; reflexivity. Qed.

End Scenario.

(** * Further properties of the service *)

Section MoreProperties.
Context (C : Collaborators).
Variable users_service_read : Identity -> string -> exn + unit.
Variable groups_service_read : Identity -> string -> exn + unit.
Variable system_role_subject : string -> exn + unit.
Variable new_token : world -> string.
Variable url_for_verify : string -> string.

(** ** Secret links *)

Lemma index_of_None (l : list string) (x : string) :
  index_of l x = None ↔ x ∉ l.
Proof.
  induction l as [|y l IH]; simpl.
  - split; [intros _; apply not_elem_of_nil | done].
  - destruct (String.eqb_spec y x) as [->|Hne].
    + split; [done|]. intros Hnot. destruct Hnot. by left.
    + rewrite not_elem_of_cons. destruct (index_of l x); simpl.
      * split; [done|]. intros [_ Hnot]. by apply IH in Hnot.
      * split; [|done]. intros _. split; [done|]. by apply IH.
Qed.

Lemma index_of_Some (l : list string) (x : string) (i : nat) :
  index_of l x = Some i ->
  l !! i = Some x ∧ ∀ j, (j < i)%nat -> l !! j ≠ Some x.
Proof.
  revert i. induction l as [|y l IH]; simpl; [done|]. intros i.
  destruct (String.eqb_spec y x) as [->|Hne].
  - intros [= <-]. split; [done|]. intros j Hj. lia.
  - destruct (index_of l x) as [k|]; simpl; [|done].
    intros [= <-]. destruct (IH k eq_refl) as [Hk Hfirst]. split; [done|].
    intros [|j] Hj; simpl; [congruence|]. apply Hfirst. lia.
Qed.

(** A link id carried by some link of the parent is fetched. *)
Lemma has_link_exists (p : Parent) (link_id_ : string) :
  link_id_ ∈ (link_id <$> links p) ->
  ∃ idx link, has_link p link_id_ idx link.
Proof.
  intros Hin. destruct (index_of (link_id <$> links p) link_id_) as [idx|] eqn:Hidx.
  - destruct (index_of_Some _ _ _ Hidx) as [Hl _].
    rewrite list_lookup_fmap in Hl.
    destruct (links p !! idx) as [link|] eqn:Hlink; [|done].
    by exists idx, link.
  - by apply index_of_None in Hidx.
Qed.

Lemma has_link_id (p : Parent) (link_id_ : string) idx link :
  has_link p link_id_ idx link ->
  link_id link = link_id_
  ∧ ∀ j link', (j < idx)%nat -> links p !! j = Some link' -> link_id link' ≠ link_id_.
Proof.
  intros [Hidx Hlink]. destruct (index_of_Some _ _ _ Hidx) as [Hl Hfirst].
  rewrite list_lookup_fmap, Hlink in Hl. split; [by injection Hl|].
  intros j link' Hj Hj' Heq. apply (Hfirst j Hj). by rewrite list_lookup_fmap, Hj', <- Heq.
Qed.

Lemma fetch_link_unknown w parent p link_id_ :
  parents w !! parent = Some p -> link_id_ ∉ (link_id <$> links p) ->
  fetch_link parent link_id_ w = (inl (LookupError link_id_), w).
Proof.
  intros Hp Hnot. apply index_of_None in Hnot. unfold fetch_link.
  cbv [bind parent_obj raise]. by rewrite Hp, Hnot.
Qed.

Lemma read_secret_link_run w identity id_ record parent p link_id_ idx link :
  manages C w identity id_ record parent p ->
  has_link p link_id_ idx link ->
  read_secret_link C identity id_ link_id_ w = (inr link, w).
Proof.
  intros Hm Hl. unfold read_secret_link. rewrite (enter_gate _ _ _ _ _ _ _ _ Hm).
  destruct Hm as (_ & Hp & _).
  unfold bind at 1. by rewrite (fetch_link_run _ _ _ _ _ _ Hp Hl).
Qed.

Lemma delete_secret_link_run w identity id_ record parent p link_id_ idx link :
  manages C w identity id_ record parent p ->
  has_link p link_id_ idx link ->
  delete_secret_link C identity id_ link_id_ w
  = (inr true,
     set_uow (fun ops => ops ++ commit_ops record parent)
       (set_parents (alter (set_links (fun _ => delete idx (links p))) parent) w)).
Proof.
  intros Hm Hl. unfold delete_secret_link. rewrite (enter_gate _ _ _ _ _ _ _ _ Hm).
  destruct Hm as (_ & Hp & _).
  unfold bind at 1. rewrite (fetch_link_run _ _ _ _ _ _ Hp Hl).
  unfold bind at 1, parent_obj. rewrite Hp.
  destruct Hl as [_ Hlink].
  unfold bind at 1, lift, PyList.pop. rewrite position_inside.
  - rewrite Nat2Z.id, Hlink. cbv [bind update_parent modify]. cbn [snd].
    by rewrite commit_and_index_run.
  - apply lookup_lt_Some in Hlink. lia.
Qed.

(** X2. For a manager of the record, [read_secret_link] raises
    [LookupError] exactly when no link of the parent carries the id, leaving
    the store alone; otherwise it returns the first link of the sequence that
    carries the id.  [update_secret_link] and [delete_secret_link] raise the
    same error on an unknown id, before validating anything and without
    touching the store. *)
Theorem secret_link_lookup w identity id_ record parent p link_id_ data :
  manages C w identity id_ record parent p ->
  ((link_id_ ∉ (link_id <$> links p)) ->
     read_secret_link C identity id_ link_id_ w = (inl (LookupError link_id_), w)
     ∧ update_secret_link C identity id_ link_id_ data w = (inl (LookupError link_id_), w)
     ∧ delete_secret_link C identity id_ link_id_ w = (inl (LookupError link_id_), w))
  ∧ (link_id_ ∈ (link_id <$> links p) ->
     ∃ idx link,
       read_secret_link C identity id_ link_id_ w = (inr link, w)
       ∧ links p !! idx = Some link
       ∧ link_id link = link_id_
       ∧ ∀ j link', (j < idx)%nat -> links p !! j = Some link' -> link_id link' ≠ link_id_).
Proof.
  intros Hm. split.
  - intros Hnot. unfold read_secret_link, update_secret_link, delete_secret_link.
    rewrite !(enter_gate _ _ _ _ _ _ _ _ Hm). destruct Hm as (_ & Hp & _).
    unfold bind. by rewrite (fetch_link_unknown _ _ _ _ Hp Hnot).
  - intros Hin. destruct (has_link_exists _ _ Hin) as (idx & link & Hl).
    exists idx, link. split; [by eapply read_secret_link_run|].
    split; [apply Hl|]. by apply has_link_id.
Qed.

Lemma update_secret_link_schema_error w identity id_ record parent p link_id_ idx link data e :
  manages C w identity id_ record parent p ->
  has_link p link_id_ idx link ->
  schema_secret_link C data = inl e ->
  update_secret_link C identity id_ link_id_ data w = (inl e, w).
Proof.
  intros Hm Hl Hs. unfold update_secret_link. rewrite (enter_gate _ _ _ _ _ _ _ _ Hm).
  destruct Hm as (_ & Hp & _).
  unfold bind at 1. rewrite (fetch_link_run _ _ _ _ _ _ Hp Hl).
  unfold bind at 1, lift at 1. by rewrite Hs.
Qed.

(** An accepted update, with what was validated and stored. *)
Lemma update_secret_link_accepted w identity id_ record parent p link_id_ idx link data
  link' w' :
  manages C w identity id_ record parent p ->
  has_link p link_id_ idx link ->
  update_secret_link C identity id_ link_id_ data w = (inr link', w') ->
  ∃ loaded value w1,
    schema_secret_link C data = inr loaded
    ∧ _validate_secret_link_expires_at C (mjoin (d_expires_at loaded))
        (given (d_expires_at loaded)) (Some link) w = (inr value, w1)
    ∧ link' = updated_link link loaded value
    ∧ w' = after_update_link record parent idx link' w1
    ∧ parents w1 = parents w ∧ uow w1 = uow w
    ∧ tokens w1 = tokens w ∧ requests w1 = requests w.
Proof.
  intros Hm Hl Hrun.
  destruct (schema_secret_link C data) as [e|loaded] eqn:Hs.
  { by rewrite (update_secret_link_schema_error _ _ _ _ _ _ _ _ _ _ _ Hm Hl Hs) in Hrun. }
  rewrite (update_secret_link_run _ _ _ _ _ _ _ _ _ _ _ _ Hm Hl Hs) in Hrun.
  destruct (_validate_secret_link_expires_at _ _ _ _ _) as [[e|value] w1] eqn:Hv; [done|].
  injection Hrun as <- <-. exists loaded, value, w1.
  split; [done|]. split; [done|]. split; [done|]. split; [done|].
  rewrite validate_update_spec in Hv.
  destruct (d_expires_at loaded) as [[d|]|]; cbv zeta in Hv.
  - destruct (_ <? _); [done|].
    destruct (match expires_at link with Some _ => _ | None => _ end); [done|].
    destruct (_ <? _); [done|]. by injection Hv as <- <-.
  - destruct (given _); [done|]. by injection Hv as <- <-.
  - by injection Hv as <- <-.
Qed.

(** X3. An accepted [update_secret_link] changes one position of one parent:
    the link sequence keeps its length and every other position, the grants
    and the owner of the parent are untouched, and the link keeps its id, its
    origin and its extra data.  Other parents, the tokens and the requests are
    untouched, and the unit of work receives exactly the commit of the parent,
    the commit of the record (if the record is truthy) and the reindexing, in
    that order. *)
Theorem update_secret_link_frame w identity id_ record parent p link_id_ idx link data
  link' w' :
  manages C w identity id_ record parent p ->
  has_link p link_id_ idx link ->
  update_secret_link C identity id_ link_id_ data w = (inr link', w') ->
  ∃ p', parents w' !! parent = Some p'
    ∧ length (links p') = length (links p)
    ∧ links p' !! idx = Some link'
    ∧ (∀ j, j ≠ idx -> links p' !! j = links p !! j)
    ∧ grants p' = grants p ∧ owner p' = owner p
    ∧ link_id link' = link_id link
    ∧ link_origin link' = link_origin link
    ∧ extra_data link' = extra_data link
    ∧ (∀ k, k ≠ parent -> parents w' !! k = parents w !! k)
    ∧ tokens w' = tokens w ∧ requests w' = requests w
    ∧ uow w' = uow w ++ commit_ops record parent.
Proof.
  intros Hm Hl Hrun.
  destruct (update_secret_link_accepted _ _ _ _ _ _ _ _ _ _ _ _ Hm Hl Hrun)
    as (loaded & value & w1 & _ & _ & Hlink & -> & Hpar & Huow & Htok & Hreq).
  destruct Hm as (_ & Hp & _). destruct Hl as [_ Hlookup].
  exists (set_links (fun l => <[idx := link']> l) p).
  unfold after_update_link, set_uow, set_parents. cbn [parents uow tokens requests].
  split; [by rewrite lookup_alter_eq, Hpar, Hp|].
  cbn [links grants owner set_links].
  split; [by rewrite length_insert|].
  split; [apply list_lookup_insert_eq; by eapply lookup_lt_Some|].
  split; [intros j Hj; by apply list_lookup_insert_ne|].
  do 2 (split; [done|]).
  rewrite Hlink. do 3 (split; [done|]).
  split; [intros k Hk; by rewrite lookup_alter_ne, Hpar|].
  by rewrite Huow.
Qed.

(** X4. An update whose validated payload is empty changes nothing in the
    link: the link returned is the stored one and the parent is as before;
    an empty permission string counts as no permission.  The commit is
    registered all the same. *)
Theorem update_secret_link_empty_payload w identity id_ record parent p link_id_ idx link
  data loaded :
  manages C w identity id_ record parent p ->
  has_link p link_id_ idx link ->
  schema_secret_link C data = inr loaded ->
  d_expires_at loaded = None ->
  d_permission loaded = None ∨ d_permission loaded = Some "" ->
  d_description loaded = None ->
  ∃ w', update_secret_link C identity id_ link_id_ data w = (inr link, w')
    ∧ parents w' = parents w
    ∧ uow w' = uow w ++ commit_ops record parent.
Proof.
  intros Hm Hl Hs Hexp Hperm Hdesc.
  rewrite (update_secret_link_run _ _ _ _ _ _ _ _ _ _ _ _ Hm Hl Hs), validate_update_spec, Hexp.
  assert (Hsame : updated_link link loaded None = link).
  { unfold updated_link. rewrite Hdesc. destruct link. simpl.
    by destruct Hperm as [-> | ->]. }
  rewrite Hsame. eexists. split; [done|].
  destruct Hm as (_ & Hp & _). destruct Hl as [_ Hlookup].
  unfold after_update_link, set_uow, set_parents. cbn [parents uow]. split; [|done].
  apply map_eq. intros k. destruct (decide (parent = k)) as [<-|Hne].
  - rewrite lookup_alter_eq, Hp. simpl. f_equal. unfold set_links.
    rewrite list_insert_id by done. by destruct p.
  - by rewrite lookup_alter_ne.
Qed.

(** X5. Which updates of an existing link are accepted, as far as the expiration
    goes: one that leaves [expires_at] out, one that sets it to null on a link
    without expiration, and one that sets an instant that is not before
    either of the two clock readings of the validation and not after the
    expiration the link has, if it has one. *)
Theorem update_secret_link_accepted_iff w identity id_ record parent p link_id_ idx link
  data loaded :
  manages C w identity id_ record parent p ->
  has_link p link_id_ idx link ->
  schema_secret_link C data = inr loaded ->
  (∃ link' w', update_secret_link C identity id_ link_id_ data w = (inr link', w'))
  ↔ match d_expires_at loaded with
    | None => True
    | Some None => expires_at link = None
    | Some (Some d) =>
        utc_clock C (ticks w) <= expiry_instant d
        ∧ utc_clock C (S (ticks w)) <= expiry_instant d
        ∧ ∀ old, expires_at link = Some old -> expiry_instant d <= old
    end.
Proof.
  intros Hm Hl Hs.
  rewrite (update_secret_link_run _ _ _ _ _ _ _ _ _ _ _ _ Hm Hl Hs), validate_update_spec.
  destruct (d_expires_at loaded) as [[d|]|]; cbv zeta.
  - destruct (Z.ltb_spec (expiry_instant d) (utc_clock C (ticks w))).
    { split; [by intros (? & ? & ?)|]. intros (? & _). lia. }
    destruct (expires_at link) as [old|].
    + destruct (Z.ltb_spec old (expiry_instant d)).
      { split; [by intros (? & ? & ?)|]. intros (_ & _ & Hold).
        specialize (Hold old eq_refl). lia. }
      destruct (Z.ltb_spec (expiry_instant d) (utc_clock C (S (ticks w)))).
      { split; [by intros (? & ? & ?)|]. intros (_ & ? & _). lia. }
      split; [|by eauto]. intros _. split; [done|]. split; [done|].
      by intros ? [= <-].
    + destruct (Z.ltb_spec (expiry_instant d) (utc_clock C (S (ticks w)))).
      { split; [by intros (? & ? & ?)|]. intros (_ & ? & _). lia. }
      split; [|by eauto]. intros _. done.
  - destruct (expires_at link) as [old|]; simpl.
    + split; [by intros (? & ? & ?)|done].
    + split; [done|by eauto].
  - split; [done|by eauto].
Qed.

Lemma read_all_secret_links_run w identity id_ record parent p :
  manages C w identity id_ record parent p ->
  read_all_secret_links C identity id_ w = (inr (links p), w).
Proof.
  intros Hm. unfold read_all_secret_links. by rewrite (enter_method _ _ _ _ _ _ _ _ Hm).
Qed.

Lemma index_of_first_link (l : list SecretLink) (link_id_ : string) :
  match index_of (link_id <$> l) link_id_ with
  | Some idx => is_Some (l !! idx) ∧ l !! idx = first_link l link_id_
  | None => first_link l link_id_ = None
  end.
Proof.
  unfold first_link. induction l as [|link l IH]; [done|].
  rewrite fmap_cons. cbn [index_of].
  destruct (String.eqb_spec (link_id link) link_id_) as [Heq|Hne].
  - rewrite filter_cons_True by done. split; [by exists link|done].
  - rewrite filter_cons_False by done.
    destruct (index_of (link_id <$> l) link_id_) as [idx|]; exact IH.
Qed.

(** What [read_secret_link] answers, in terms of the sequence alone. *)
Lemma read_secret_link_first w identity id_ record parent p link_id_ :
  manages C w identity id_ record parent p ->
  read_secret_link C identity id_ link_id_ w
  = (match first_link (links p) link_id_ with
     | Some link => inr link
     | None => inl (LookupError link_id_)
     end, w).
Proof.
  intros Hm. pose proof (index_of_first_link (links p) link_id_) as Hidx.
  destruct (index_of (link_id <$> links p) link_id_) as [idx|] eqn:Hi.
  - destruct Hidx as [[link Hlink] Hfirst]. rewrite <- Hfirst, Hlink.
    by apply (read_secret_link_run w identity id_ record parent p link_id_ idx).
  - rewrite Hidx. unfold read_secret_link. rewrite (enter_gate _ _ _ _ _ _ _ _ Hm).
    destruct Hm as (_ & Hp & _). unfold bind.
    rewrite (fetch_link_unknown _ _ _ _ Hp); [done|]. by apply index_of_None.
Qed.

Lemma first_link_delete_other (l : list SecretLink) idx link (other : string) :
  l !! idx = Some link -> link_id link ≠ other ->
  first_link (delete idx l) other = first_link l other.
Proof.
  intros Hl Hne. unfold first_link.
  rewrite <- (take_drop_middle l idx link Hl) at 2.
  rewrite delete_take_drop, !filter_app. by rewrite filter_cons_False.
Qed.

(** X6. When the validated payload names an allowed permission level and its
    expiration passes the check, [create_secret_link] succeeds: the new link
    carries that level, the description of the payload (or the empty one) and
    the expiration as a UTC instant; it is appended to the parent's links and
    the commit is registered.  A following [read_all_secret_links] lists the
    old links in their order, then the new one. *)
Theorem create_secret_link_appends w identity id_ record parent p data loaded level :
  manages C w identity id_ record parent p ->
  schema_secret_link C data = inr loaded ->
  d_permission loaded = Some level ->
  level ∈ allowed_levels C ->
  expiration_passes C w loaded ->
  ∃ link w',
    create_secret_link C identity id_ data w = (inr link, w')
    ∧ permission_level link = level
    ∧ description link = default "" (d_description loaded)
    ∧ expires_at link = expiry_instant <$> mjoin (d_expires_at loaded)
    ∧ parents w' !! parent = Some (set_links (fun l => l ++ [link]) p)
    ∧ uow w' = uow w ++ commit_ops record parent
    ∧ (permits C w' identity "manage" record = true ->
         read_all_secret_links C identity id_ w' = (inr (links p ++ [link]), w')).
Proof.
  intros Hm Hs Hlevel Hallowed Hpass.
  rewrite (create_secret_link_run _ _ _ _ _ _ _ _ _ Hm Hs), validate_create_spec, Hlevel.
  rewrite bool_decide_eq_true_2 by done.
  assert (Hgoal : ∀ value w1,
            parents w1 = parents w -> records w1 = records w -> drafts w1 = drafts w ->
            uow w1 = uow w ->
            wall <$> value = expiry_instant <$> mjoin (d_expires_at loaded) ->
            ∃ link w',
              (@inr exn SecretLink (created_link w1 level loaded value),
               after_create_link record parent (created_link w1 level loaded value) w1)
              = (inr link, w')
              ∧ permission_level link = level
              ∧ description link = default "" (d_description loaded)
              ∧ expires_at link = expiry_instant <$> mjoin (d_expires_at loaded)
              ∧ parents w' !! parent = Some (set_links (fun l => l ++ [link]) p)
              ∧ uow w' = uow w ++ commit_ops record parent
              ∧ (permits C w' identity "manage" record = true ->
                   read_all_secret_links C identity id_ w' = (inr (links p ++ [link]), w'))).
  { intros value w1 Hpar Hrec Hdr Huow Hval. eexists _, _. split; [reflexivity|].
    do 2 (split; [done|]). split; [done|].
    assert (Hp' : parents (after_create_link record parent
                             (created_link w1 level loaded value) w1) !! parent
                  = Some (set_links (fun l => l ++ [created_link w1 level loaded value]) p)).
    { destruct Hm as (_ & Hp & _). unfold after_create_link, set_uow, set_parents,
        set_next_link. cbn [parents]. by rewrite lookup_alter_eq, Hpar, Hp. }
    split; [done|].
    split; [unfold after_create_link, set_uow; cbn [uow]; by rewrite <- Huow|].
    intros Hperm.
    assert (Hm' : manages C (after_create_link record parent
                               (created_link w1 level loaded value) w1)
                    identity id_ record parent
                    (set_links (fun l => l ++ [created_link w1 level loaded value]) p)).
    { eapply (manages_after C w); eauto.
      unfold after_create_link, set_uow, set_parents, set_next_link. cbn [parents].
      by rewrite Hpar. }
    by rewrite (read_all_secret_links_run _ _ _ _ _ _ Hm'). }
  destruct (mjoin (d_expires_at loaded)) as [d|] eqn:Hd.
  - destruct (Z.ltb_spec (expiry_instant d) (utc_clock C (ticks w))) as [Hpast|_].
    { specialize (Hpass d Hd). lia. }
    by apply Hgoal.
  - by apply Hgoal.
Qed.

(** X7. [delete_secret_link] on a known id removes from the parent's links
    the first link carrying the id, keeps the others in their order and
    registers the commit.  Afterwards every other id reads as before, and the
    deleted id is not found any more when no other link carried it. *)
Theorem delete_secret_link_removes w identity id_ record parent p link_id_ idx link :
  manages C w identity id_ record parent p ->
  has_link p link_id_ idx link ->
  permits C (snd (delete_secret_link C identity id_ link_id_ w)) identity "manage" record
    = true ->
  let w' := snd (delete_secret_link C identity id_ link_id_ w) in
  fst (delete_secret_link C identity id_ link_id_ w) = inr true
  ∧ uow w' = uow w ++ commit_ops record parent
  ∧ read_all_secret_links C identity id_ w' = (inr (delete idx (links p)), w')
  ∧ (∀ other, other ≠ link_id_ ->
       fst (read_secret_link C identity id_ other w')
       = fst (read_secret_link C identity id_ other w))
  ∧ ((∀ j link', j ≠ idx -> links p !! j = Some link' -> link_id link' ≠ link_id_) ->
       read_secret_link C identity id_ link_id_ w' = (inl (LookupError link_id_), w')).
Proof.
  intros Hm Hl Hperm w'. subst w'.
  rewrite (delete_secret_link_run _ _ _ _ _ _ _ _ _ Hm Hl) in *.
  cbn [fst snd] in *.
  set (w' := set_uow _ _) in *.
  assert (Hm' : manages C w' identity id_ record parent
                  (set_links (fun _ => delete idx (links p)) p)).
  { eapply (manages_after C w); eauto. }
  destruct (has_link_id _ _ _ _ Hl) as [Hid _]. destruct Hl as [_ Hlookup].
  split; [done|]. split; [done|].
  split; [by rewrite (read_all_secret_links_run _ _ _ _ _ _ Hm')|].
  split.
  - intros other Hne.
    rewrite (read_secret_link_first _ _ _ _ _ _ other Hm'),
      (read_secret_link_first _ _ _ _ _ _ other Hm).
    cbn [fst links set_links]. rewrite (first_link_delete_other _ _ link); congruence.
  - intros Huniq. unfold read_secret_link. rewrite (enter_gate _ _ _ _ _ _ _ _ Hm').
    destruct Hm' as (_ & Hp' & _). unfold bind.
    rewrite (fetch_link_unknown _ _ _ _ Hp'); [done|].
    cbn [links set_links]. intros Hin.
    apply list_elem_of_fmap in Hin as (link' & Hid' & Hin).
    apply list_elem_of_lookup in Hin as [j Hj].
    rewrite list_lookup_delete in Hj.
    destruct (decide (j < idx)%nat);
      (eapply Huniq; [|exact Hj|by symmetry]); lia.
Qed.

(** ** Grants *)

Local Abbreviation check_grant_subject :=
  (_check_grant_subject users_service_read groups_service_read system_role_subject).
Local Abbreviation lookup_subject :=
  (subject_lookup users_service_read groups_service_read system_role_subject).

Lemma check_grant_subject_run identity grant w :
  check_grant_subject identity grant w
  = (match lookup_subject identity (subject_type grant) (subject_id grant) with
     | None => inr false
     | Some (inr _) => inr true
     | Some (inl e) => if is_LookupError_or_PermissionDeniedError e then inr false else inl e
     end, w).
Proof.
  unfold _check_grant_subject, subject_lookup, try_except.
  destruct (String.eqb (subject_type grant) "user").
  { cbv [bind lift ret]. destruct (users_service_read _ _) as [e|[]]; [|done].
    by destruct (is_LookupError_or_PermissionDeniedError e). }
  destruct (String.eqb (subject_type grant) "role").
  { cbv [bind lift ret]. destruct (groups_service_read _ _) as [e|[]]; [|done].
    by destruct (is_LookupError_or_PermissionDeniedError e). }
  destruct (String.eqb (subject_type grant) "system_role"); [|done].
  cbv [bind lift ret]. destruct (system_role_subject _) as [e|[]]; [|done].
  by destruct (is_LookupError_or_PermissionDeniedError e).
Qed.

(** X8. [_check_grant_subject] never changes the store.  It answers False
    for a subject type other than user, role and system role, without asking
    any service; it answers True when the lookup returns; a [LookupError]
    (also [IndexError] or [KeyError]) or [PermissionDeniedError] of the lookup
    is turned into False, and any other exception propagates. *)
Theorem check_grant_subject_masks identity grant w :
  snd (check_grant_subject identity grant w) = w
  ∧ (subject_type grant ≠ "user" -> subject_type grant ≠ "role" ->
     subject_type grant ≠ "system_role" ->
       fst (check_grant_subject identity grant w) = inr false)
  ∧ (∀ outcome,
       lookup_subject identity (subject_type grant) (subject_id grant) = Some outcome ->
       (outcome = inr tt -> fst (check_grant_subject identity grant w) = inr true)
       ∧ (∀ e, outcome = inl e ->
            (is_LookupError e = true ∨ is_PermissionDeniedError e = true ->
               fst (check_grant_subject identity grant w) = inr false)
            ∧ (is_LookupError e = false -> is_PermissionDeniedError e = false ->
               fst (check_grant_subject identity grant w) = inl e))).
Proof.
  rewrite check_grant_subject_run. cbn [fst snd]. split; [done|]. split.
  - intros Hu Hr Hs. unfold subject_lookup.
    apply String.eqb_neq in Hu, Hr, Hs. by rewrite Hu, Hr, Hs.
  - intros outcome ->. split.
    + by intros ->.
    + intros e ->. unfold is_LookupError_or_PermissionDeniedError. split.
      * intros [-> | ->]; [done|]. by rewrite orb_true_r.
      * by intros -> ->.
Qed.

Lemma create_grant_run w identity id_ record parent p data loaded st si pm :
  manages C w identity id_ record parent p ->
  schema_grant C data = inr loaded ->
  g_subject loaded = Some (mk_SubjectData (Some st) (Some si)) ->
  g_permission loaded = Some pm ->
  let grant := mk_Grant st si pm (mjoin (g_origin loaded)) in
  create_grant C users_service_read groups_service_read system_role_subject identity id_ data w
  = match lookup_subject identity st si with
    | Some (inr _) =>
        (inr grant,
         set_uow (fun ops => ops ++ commit_ops record parent) (grant_appended parent grant w))
    | Some (inl e) =>
        if is_LookupError_or_PermissionDeniedError e
        then (inl (ValidationError msg_subject "subject.id"), grant_appended parent grant w)
        else (inl e, grant_appended parent grant w)
    | None => (inl (ValidationError msg_subject "subject.id"), grant_appended parent grant w)
    end.
Proof.
  intros Hm Hs Hsub Hpm grant. unfold create_grant.
  rewrite (enter_gate _ _ _ _ _ _ _ _ Hm).
  cbv [bind lift getkey ret grants_create grant_create update_parent modify].
  rewrite Hs, Hsub. cbn [s_type s_id]. rewrite Hpm. cbn [andb].
  rewrite check_grant_subject_run. cbn [subject_type subject_id]. fold grant.
  destruct (lookup_subject identity st si) as [[e|[]]|]; cbn [negb].
  - by destruct (is_LookupError_or_PermissionDeniedError e).
  - by rewrite commit_and_index_run.
  - done.
Qed.

(** X9. [create_grant] for a subject of type user, role or system role,
    with a payload the schema loads: the outcome follows the lookup of the
    subject.  When the lookup returns, the call returns the grant made of the
    subject, permission and origin of the payload and registers the commit.
    When it raises [LookupError] or [PermissionDeniedError], the call fails
    with the ValidationError "Could not find the specified subject." on
    "subject.id"; any other exception of the lookup is the exception of the
    call.  In both failures nothing is registered with the unit of work. *)
Theorem create_grant_checks_subject w identity id_ record parent p data loaded st si pm
  lookup :
  manages C w identity id_ record parent p ->
  schema_grant C data = inr loaded ->
  g_subject loaded = Some (mk_SubjectData (Some st) (Some si)) ->
  g_permission loaded = Some pm ->
  lookup_subject identity st si = Some lookup ->
  let grant := mk_Grant st si pm (mjoin (g_origin loaded)) in
  let outcome :=
    create_grant C users_service_read groups_service_read system_role_subject
                 identity id_ data w in
  (lookup = inr tt ->
     fst outcome = inr grant
     ∧ uow (snd outcome) = uow w ++ commit_ops record parent)
  ∧ (∀ e, lookup = inl e ->
       (is_LookupError_or_PermissionDeniedError e = true ->
          fst outcome = inl (ValidationError msg_subject "subject.id")
          ∧ uow (snd outcome) = uow w)
       ∧ (is_LookupError_or_PermissionDeniedError e = false ->
          fst outcome = inl e ∧ uow (snd outcome) = uow w)).
Proof.
  intros Hm Hs Hsub Hpm Hlookup grant outcome. subst outcome.
  rewrite (create_grant_run _ _ _ _ _ _ _ _ _ _ _ Hm Hs Hsub Hpm). fold grant.
  rewrite Hlookup. split.
  - intros ->. done.
  - intros e ->. split; intros ->; done.
Qed.

(** X10. [update_grant] reports a missing subject in more cases than the
    subject being unknown: when the validated payload lacks "origin",
    "permission", "subject" or the subject's "type" or "id", the [KeyError] of
    the lookup is caught by the same handler, and the call fails with the
    ValidationError "Could not find the specified subject." on "subject.id".
    In all these cases the store is left alone. *)
Theorem update_grant_subject_error w identity id_ record parent p (i : Z) (k : nat)
  old_grant data (partial : bool) loaded :
  manages C w identity id_ record parent p ->
  PyList.position (length (grants p)) i = Some k ->
  grants p !! k = Some old_grant ->
  schema_grant C (if partial then partial_data old_grant data else data) = inr loaded ->
  g_origin loaded = None
  ∨ g_permission loaded = None
  ∨ g_subject loaded = None
  ∨ (∃ subject, g_subject loaded = Some subject ∧ (s_type subject = None ∨ s_id subject = None))
  ∨ (∃ o pm st si, g_origin loaded = Some o ∧ g_permission loaded = Some pm
                   ∧ g_subject loaded = Some (mk_SubjectData (Some st) (Some si))
                   ∧ subject_exists C st si = false) ->
  update_grant C identity id_ i data partial w
  = (inl (ValidationError msg_subject "subject.id"), w).
Proof.
  intros Hm Hk Hold Hload Hcase.
  unfold update_grant. rewrite (enter_method _ _ _ _ _ _ _ _ Hm).
  cbv [bind lift ret raise try_except getkey grant_create PyList.getitem].
  rewrite Hk, Hold, Hload.
  destruct (g_origin loaded) as [o|]; [|done].
  destruct (g_permission loaded) as [pm|]; [|done].
  destruct (g_subject loaded) as [[[st|] [si|]]|]; try done.
  destruct Hcase as [?|[?|[?|[(subject & [= <-] & [?|?])|Hex]]]]; try done.
  destruct Hex as (o' & pm' & st' & si' & [= <-] & [= <-] & [= <- <-] & Hex).
  cbn [s_type s_id]. by rewrite Hex.
Qed.

(** X11. A successful [update_grant] replaces one position of the grant
    sequence: the sequence keeps its length and all its other positions, the
    links and the owner of the parent are untouched, and the commit is
    registered.  The grant stored is the one returned. *)
Theorem update_grant_frame w identity id_ record parent p (i : Z) data (partial : bool)
  new_grant w' :
  manages C w identity id_ record parent p ->
  update_grant C identity id_ i data partial w = (inr new_grant, w') ->
  ∃ k p', PyList.position (length (grants p)) i = Some k
    ∧ parents w' !! parent = Some p'
    ∧ length (grants p') = length (grants p)
    ∧ grants p' !! k = Some new_grant
    ∧ (∀ j, j ≠ k -> grants p' !! j = grants p !! j)
    ∧ links p' = links p ∧ owner p' = owner p
    ∧ uow w' = uow w ++ commit_ops record parent.
Proof.
  intros Hm. unfold update_grant. rewrite (enter_method _ _ _ _ _ _ _ _ Hm).
  destruct Hm as (_ & Hp & _).
  cbv [bind lift ret raise try_except getkey grant_create update_parent modify parent_obj
       PyList.getitem PyList.setitem].
  destruct (PyList.position (length (grants p)) i) as [k|] eqn:Hk; [|done].
  destruct (grants p !! k) as [old_grant|] eqn:Hold; [|done].
  destruct (schema_grant C _) as [e|loaded]; [done|].
  destruct (g_origin loaded) as [o|]; [|done].
  destruct (g_permission loaded) as [pm|]; [|done].
  destruct (g_subject loaded) as [[[st|] [si|]]|]; try done.
  cbn [s_type s_id andb].
  destruct (subject_exists C st si); cbn [andb negb is_LookupError]; [|done].
  rewrite Hp, Hk, commit_and_index_run. intros [= <- <-].
  exists k, (set_grants (fun _ => <[k := mk_Grant st si pm o]> (grants p)) p).
  split; [done|]. unfold set_uow, set_parents. cbn [parents uow].
  split; [by rewrite lookup_alter_eq, Hp|]. cbn [grants links owner set_grants].
  split; [by rewrite length_insert|].
  split; [apply list_lookup_insert_eq; by eapply lookup_lt_Some|].
  split; [intros j Hj; by apply list_lookup_insert_ne|]. done.
Qed.

(** X12. A partial [update_grant] overrides exactly the fields its payload
    gives: with a schema that returns the merged data as it is, the new grant
    takes each of permission, subject type, subject id and origin from the
    payload when present and from the replaced grant otherwise.  In
    particular a partial update with an empty payload stores the grant it
    found and leaves the grant sequence as it was. *)
Theorem update_grant_partial_merges w identity id_ record parent p (i : Z) (k : nat)
  old_grant data :
  manages C w identity id_ record parent p ->
  PyList.position (length (grants p)) i = Some k ->
  grants p !! k = Some old_grant ->
  schema_grant C (partial_data old_grant data) = inr (partial_data old_grant data) ->
  let new_grant :=
    mk_Grant (default (subject_type old_grant) (g_subject data ≫= s_type))
             (default (subject_id old_grant) (g_subject data ≫= s_id))
             (default (permission old_grant) (g_permission data))
             (default (origin old_grant) (g_origin data)) in
  subject_exists C (subject_type new_grant) (subject_id new_grant) = true ->
  ∃ w', update_grant C identity id_ i data true w = (inr new_grant, w')
    ∧ parents w' !! parent = Some (set_grants (fun l => <[k := new_grant]> l) p)
    ∧ (data = mk_GrantData None None None ->
         new_grant = old_grant ∧ parents w' = parents w).
Proof.
  intros Hm Hk Hold Hload new_grant Hex.
  rewrite (update_grant_run C w identity id_ record parent p i k old_grant data true
             (partial_data old_grant data) (origin new_grant) (permission new_grant)
             (subject_type new_grant) (subject_id new_grant) Hm Hk Hold Hload
             eq_refl eq_refl eq_refl Hex).
  eexists. split; [done|]. destruct Hm as (_ & Hp & _).
  unfold after_update_grant, set_uow, set_parents. cbn [parents].
  split; [by rewrite lookup_alter_eq, Hp|].
  intros ->. assert (Hsame : new_grant = old_grant).
  { subst new_grant. by destruct old_grant. }
  split; [done|]. clear Hload Hex Hsame. subst new_grant.
  apply map_eq. intros j. destruct (decide (parent = j)) as [<-|Hne].
  - rewrite lookup_alter_eq, Hp. destruct old_grant. simpl. f_equal. unfold set_grants.
    rewrite list_insert_id by done. by destruct p.
  - by rewrite lookup_alter_ne.
Qed.

Lemma read_all_grants_run w identity id_ record parent p :
  manages C w identity id_ record parent p ->
  read_all_grants C identity id_ w = (inr (grants p), w).
Proof.
  intros Hm. unfold read_all_grants. by rewrite (enter_method _ _ _ _ _ _ _ _ Hm).
Qed.

(** X13. After [delete_grant] at a valid index i the grant sequence is the
    old one without position i: [read_all_grants] lists it, one shorter;
    every index below i reads the grant it read before, and every index from i
    on reads the grant that was one position further. *)
Theorem delete_grant_shifts w identity id_ record parent p (i : Z) :
  manages C w identity id_ record parent p ->
  0 <= i < Z.of_nat (length (grants p)) ->
  permits C (snd (delete_grant C identity id_ i w)) identity "manage" record = true ->
  let w' := snd (delete_grant C identity id_ i w) in
  read_all_grants C identity id_ w' = (inr (delete (Z.to_nat i) (grants p)), w')
  ∧ length (delete (Z.to_nat i) (grants p)) = (length (grants p) - 1)%nat
  ∧ (∀ j, 0 <= j < i ->
       read_grant C identity id_ j w' = (fst (read_grant C identity id_ j w), w'))
  ∧ (∀ j, i <= j -> j + 1 < Z.of_nat (length (grants p)) ->
       read_grant C identity id_ j w' = (fst (read_grant C identity id_ (j + 1) w), w')).
Proof.
  intros Hm Hi Hperm w'. subst w'.
  rewrite (delete_grant_run _ _ _ _ _ _ _ _ Hm Hi) in *. cbn [snd] in *.
  set (w' := after_delete_grant _ _ _ _ _) in *.
  assert (Hm' : manages C w' identity id_ record parent
                  (set_grants (fun _ => delete (Z.to_nat i) (grants p)) p)).
  { eapply (manages_after C w); eauto. }
  assert (Hlen : length (delete (Z.to_nat i) (grants p)) = (length (grants p) - 1)%nat).
  { apply length_delete. apply lookup_lt_is_Some. lia. }
  split; [by rewrite (read_all_grants_run _ _ _ _ _ _ Hm')|]. split; [done|]. split.
  - intros j Hj.
    destruct (lookup_inside (grants p) j ltac:(lia)) as [g Hg].
    rewrite (read_grant_inside C w identity id_ record parent p j g Hm ltac:(lia) Hg).
    eapply read_grant_inside; [exact Hm'| cbn [grants set_grants]; lia |].
    cbn [grants set_grants]. rewrite list_lookup_delete_lt by lia. done.
  - intros j Hj Hin.
    destruct (lookup_inside (grants p) (j + 1) ltac:(lia)) as [g Hg].
    rewrite (read_grant_inside C w identity id_ record parent p (j + 1) g Hm ltac:(lia) Hg).
    eapply read_grant_inside; [exact Hm'| cbn [grants set_grants]; lia |].
    cbn [grants set_grants]. rewrite list_lookup_delete_ge by lia.
    by replace (S (Z.to_nat j)) with (Z.to_nat (j + 1)) by lia.
Qed.

(** ** Access requests *)

Lemma open_requests_closed creator topic_ type_ r :
  is_open r = false -> open_requests creator topic_ type_ [r] = [].
Proof.
  intros Hclosed. unfold open_requests.
  destruct (decide (created_by r = creator ∧ topic r = topic_)) as [H1|H1].
  - rewrite (filter_cons_True (fun r => created_by r = creator ∧ topic r = topic_)) by done.
    rewrite filter_nil.
    destruct (decide (has_data r = true ∧ type_id r = type_)) as [H2|H2].
    + rewrite (filter_cons_True (fun r => has_data r = true ∧ type_id r = type_)) by done.
      rewrite filter_nil. rewrite filter_cons_False; [done|]. by rewrite Hclosed.
    + by rewrite (filter_cons_False (fun r => has_data r = true ∧ type_id r = type_)) by done.
  - by rewrite (filter_cons_False (fun r => created_by r = creator ∧ topic r = topic_))
      by done.
Qed.

(** X14. A user access request is submitted at once unless its creation
    reported errors.  Without errors the stored request is in status submitted,
    carries the message as its comment (the empty string for no message), asks
    for "view" and is addressed to the owner of the parent, who may be absent.
    With errors the request is returned as created, without comment; it is
    not open, so it does not count as a duplicate for a later call. *)
Theorem user_access_request_submission w identity id_ record p message :
  may_request C w identity id_ record ->
  parents w !! parent_key record = Some p ->
  fresh_request_id w ->
  open_requests (RefUser (identity_id identity)) id_ (UserAccessRequest_type_id C)
                (requests w) = [] ->
  ∃ r w',
    create_user_access_request C identity id_ message w = (inr r, w')
    ∧ requests w' = requests w ++ [r]
    ∧ receiver r = owner p
    ∧ p_permission (payload r) = "view"
    ∧ p_message (payload r) = message
    ∧ (create_errors C (mk_RequestPayload "view" message None None None) = false ->
         status r = Submitted ∧ comment r = Some (or_string message ""))
    ∧ (create_errors C (mk_RequestPayload "view" message None None None) = true ->
         status r = Created ∧ comment r = None
         ∧ open_requests (RefUser (identity_id identity)) id_ (UserAccessRequest_type_id C)
                         (requests w') = []).
Proof.
  intros Hmay Hp Hfresh Hnone.
  rewrite (create_user_access_request_run _ _ _ _ _ _ _ Hmay Hp Hfresh), Hnone.
  rewrite bool_decide_eq_true_2 by done.
  change (payload (user_request C w identity record p message))
    with (mk_RequestPayload "view" message None None None).
  destruct (create_errors C _).
  - eexists _, _. split; [done|]. cbn [requests set_requests].
    do 4 (split; [done|]). split; [done|]. intros _. do 2 (split; [done|]).
    rewrite open_requests_app, Hnone. by apply open_requests_closed.
  - eexists _, _. split; [done|]. cbn [requests set_requests].
    split; [by rewrite insert_app_r_alt, Nat.sub_diag by lia|].
    do 3 (split; [done|]). split; [done|]. done.
Qed.

(** X15. When a guest redeems a valid token while an open guest request of
    the same e-mail address on the same record exists,
    [create_guest_access_request] fails with DuplicateAccessRequestError
    carrying the ids of those requests; the duplicate check comes before the
    deletion of the token, so the token, the requests and the unit of work
    are as before and the token can be redeemed later.  The same holds when
    the record of the token no longer resolves: the call fails with
    PIDDoesNotExistError and the token is kept. *)
Theorem guest_duplicate_keeps_token w identity token_ t :
  provides_authenticated_user identity = false ->
  redeemable C w token_ = Some t ->
  let outcome := create_guest_access_request C identity token_ w in
  (records w !! record_pid t = None ->
     fst outcome = inl PIDDoesNotExistError
     ∧ tokens (snd outcome) = tokens w ∧ requests (snd outcome) = requests w
     ∧ uow (snd outcome) = uow w)
  ∧ (∀ record, records w !! record_pid t = Some record ->
       let colliding := open_requests (RefEmail (email t)) (record_pid t)
                          (GuestAccessRequest_type_id C) (requests w) in
       colliding ≠ [] ->
       fst outcome = inl (DuplicateAccessRequestError (request_id <$> colliding))
       ∧ tokens (snd outcome) = tokens w ∧ requests (snd outcome) = requests w
       ∧ uow (snd outcome) = uow w).
Proof.
  intros Hguest Hsome outcome. subst outcome. split.
  - intros Hnone.
    assert (Hrun : create_guest_access_request C identity token_ w
                   = (inl PIDDoesNotExistError, set_ticks S w)).
    { unfold create_guest_access_request, create_guest_access_request_over. rewrite Hguest.
      unfold bind at 1. rewrite get_by_token_run, Hsome.
      unfold bind at 1, pid_resolve. cbn [records set_ticks]. by rewrite Hnone. }
    by rewrite Hrun.
  - intros record Hrec colliding Hdup.
    assert (Hrun : create_guest_access_request C identity token_ w
                   = (inl (DuplicateAccessRequestError (request_id <$> colliding)),
                      set_ticks S w)).
    { unfold create_guest_access_request, create_guest_access_request_over. rewrite Hguest.
      unfold bind at 1. rewrite get_by_token_run, Hsome.
      unfold bind at 1, pid_resolve. cbn [records set_ticks]. rewrite Hrec.
      unfold bind at 1, get_world. cbn [requests set_ticks]. fold colliding.
      by rewrite bool_decide_eq_false_2. }
    by rewrite Hrun.
Qed.

Lemma create_guest_access_request_token_run w identity id_ data record em fn msg :
  provides_authenticated_user identity = false ->
  records w !! id_ = Some record ->
  gd_email data = Some em -> gd_full_name data = Some fn -> gd_message data = Some msg ->
  create_guest_access_request_token C new_token url_for_verify identity id_ data w
  = (inr msg_verification_sent,
     issued C new_token url_for_verify w id_ record em fn msg).
Proof.
  intros Hguest Hrec Hem Hfn Hmsg. unfold create_guest_access_request_token.
  rewrite Hguest.
  cbv [bind pid_resolve getkey ret AccessRequestToken_create utcnow get_world modify
       register].
  by rewrite Hrec, Hem, Hfn, Hmsg.
Qed.

(** X16. [create_guest_access_request_token] is for guests only: an
    authenticated identity gets PermissionDeniedError and nothing is stored.
    For a guest and a resolvable record it stores one new token for the
    e-mail address, name, message and record of the call, created at the time
    of the call with a shelf life of six hours, and then registers one e-mail
    to that address whose bodies carry the verification URL of that token with
    "/api/" replaced by "/"; requests and parents are untouched. *)
Theorem guest_token_issued w identity id_ data :
  (provides_authenticated_user identity = true ->
     create_guest_access_request_token C new_token url_for_verify identity id_ data w
     = (inl (PermissionDeniedError (Some "request_guest_access")), w))
  ∧ (∀ record em fn msg,
       provides_authenticated_user identity = false ->
       records w !! id_ = Some record ->
       gd_email data = Some em -> gd_full_name data = Some fn -> gd_message data = Some msg ->
       ∃ t w',
         create_guest_access_request_token C new_token url_for_verify identity id_ data w
         = (inr msg_verification_sent, w')
         ∧ tokens w' = tokens w ++ [t]
         ∧ email t = em ∧ full_name t = fn ∧ message t = msg ∧ record_pid t = id_
         ∧ created t = utc_clock C (ticks w) ∧ shelf_life t = 6 * 3600 * 1000000
         ∧ (let url := str_replace "/api/" "/" (url_for_verify (token t)) in
            uow w' = uow w ++ [EmailOp em (verification_subject record)
                                       (verification_html url) (verification_body url)])
         ∧ requests w' = requests w ∧ parents w' = parents w).
Proof.
  split.
  - intros Hauth. unfold create_guest_access_request_token. by rewrite Hauth.
  - intros record em fn msg Hguest Hrec Hem Hfn Hmsg.
    rewrite (create_guest_access_request_token_run _ _ _ _ _ _ _ _ Hguest Hrec Hem Hfn Hmsg).
    by eexists _, _.
Qed.

(** X17. Issuing a token and redeeming it.  After
    [create_guest_access_request_token] for a guest, when the token store
    resolves the token the call has added, the e-mail address has no open
    guest request on the record and the next id of the requests service is
    not in use, [create_guest_access_request] with the string of that token
    stores one new request: it is made by the address given when the token
    was issued, on the record given then, and carries "view", the message
    (the empty string for none), the address, the name and the token string
    in its payload.  Afterwards no token with that string is left. *)
Theorem guest_token_round_trip w identity id_ data record p em fn msg t :
  provides_authenticated_user identity = false ->
  records w !! id_ = Some record ->
  parents w !! parent_key record = Some p ->
  gd_email data = Some em -> gd_full_name data = Some fn -> gd_message data = Some msg ->
  let w1 :=
    snd (create_guest_access_request_token C new_token url_for_verify identity id_ data w) in
  tokens w1 = tokens w ++ [t] ->
  redeemable C w1 (token t) = Some t ->
  open_requests (RefEmail em) id_ (GuestAccessRequest_type_id C) (requests w) = [] ->
  fresh_request_id w ->
  ∃ r w2,
    create_guest_access_request C identity (token t) w1 = (inr (Some r), w2)
    ∧ requests w2 = requests w ++ [r]
    ∧ created_by r = RefEmail em
    ∧ topic r = pid record
    ∧ payload r = mk_RequestPayload "view" (Some (or_string msg "")) (Some em) (Some fn)
                                    (Some (token t))
    ∧ (∀ t', t' ∈ tokens w2 -> token t' ≠ token t).
Proof.
  intros Hguest Hrec Hp Hem Hfn Hmsg w1. subst w1.
  rewrite (create_guest_access_request_token_run _ _ _ _ _ _ _ _ Hguest Hrec Hem Hfn Hmsg).
  cbn [snd]. set (w1 := issued C new_token url_for_verify w id_ record em fn msg).
  intros Htokens Hred Hdup Hfresh.
  assert (Ht : t = issued_token C new_token w id_ em fn msg).
  { change (tokens w1) with (tokens w ++ [issued_token C new_token w id_ em fn msg])
      in Htokens.
    apply app_inj_tail in Htokens as [_ Ht]. by symmetry. }
  assert (Hfields : email t = em ∧ full_name t = fn ∧ message t = msg ∧ record_pid t = id_)
    by (by rewrite Ht).
  destruct Hfields as (Hemail & Hname & Hmessage & Hpid).
  assert (Hrec' : records w1 !! record_pid t = Some record) by (by rewrite Hpid).
  assert (Hdup' : open_requests (RefEmail (email t)) (record_pid t)
                    (GuestAccessRequest_type_id C) (requests w1) = [])
    by (by rewrite Hemail, Hpid).
  rewrite (create_guest_access_request_run C w1 identity (token t) t record p
             Hguest Hred Hrec' Hp Hdup').
  rewrite create_and_submit_run by exact Hfresh.
  assert (Hgone : ∀ t', t' ∈ tokens (token_deleted t w1) -> token t' ≠ token t).
  { intros t' Hin. unfold token_deleted in Hin. cbn [tokens set_tokens set_ticks] in Hin.
    by apply list_elem_of_filter in Hin as [Hne _]. }
  change (requests (token_deleted t w1)) with (requests w).
  destruct (create_errors C (guest_payload t)).
  - eexists _, _. split; [done|]. cbn [requests set_requests tokens].
    change (requests (token_deleted t w1)) with (requests w).
    split; [done|]. split; [by rewrite <- Hemail|]. split; [done|].
    split; [|exact Hgone].
    cbn [payload guest_request]. unfold guest_payload. by rewrite Hemail, Hname, Hmessage.
  - eexists _, _. split; [done|]. cbn [requests set_requests tokens].
    change (requests (token_deleted t w1)) with (requests w).
    rewrite insert_app_r_alt, Nat.sub_diag by lia.
    split; [done|]. split; [by rewrite <- Hemail|]. split; [done|].
    split; [|exact Hgone].
    cbn [payload submitted guest_request]. unfold guest_payload.
    by rewrite Hemail, Hname, Hmessage.
Qed.

End MoreProperties.

(** * The depth of a collection *)

Module CollectionsProperties.
Import Collections.

Lemma split_comma_length (s : string) : length (split_comma s) = S (commas s).
Proof.
  induction s as [|c s IH]; [done|]. simpl.
  destruct (Ascii.eqb c comma); simpl; [by rewrite IH|].
  destruct (split_comma s) as [|x xs]; simpl in *; [done|by rewrite <- IH].
Qed.

Lemma commas_app (a b : string) : commas (a +:+ b) = (commas a + commas b)%nat.
Proof.
  induction a as [|c a IH]; [done|]. simpl.
  destruct (Ascii.eqb c comma); simpl; by rewrite IH.
Qed.

Lemma depth_nonempty (path : string) :
  path ≠ EmptyString -> depth path = Some (Z.of_nat (commas path) - 1).
Proof.
  intros Hne. unfold depth, string_to_array.
  destruct path as [|c s]; [done|].
  pose proof (split_comma_length (String c s)) as Hlen.
  assert (Harr : array_length (split_comma (String c s))
                 = Some (Z.of_nat (length (split_comma (String c s))))).
  { by destruct (split_comma (String c s)). }
  rewrite Harr, Hlen. unfold fmap, option_fmap, option_map. f_equal. lia.
Qed.

(** X18. The computed column [depth] of a collection is NULL for an empty
    path and otherwise the number of commas of the path minus one; so the
    path "," has depth 0, and the path of a child, the path of its parent
    followed by one more segment and a comma, has the depth of the parent
    plus one. *)
Theorem depth_counts_segments :
  depth "" = None
  ∧ depth "," = Some 0
  ∧ (∀ path, path ≠ EmptyString -> depth path = Some (Z.of_nat (commas path) - 1))
  ∧ (∀ path segment, path ≠ EmptyString -> commas segment = 0%nat ->
       depth (path +:+ segment +:+ ",") = (fun d => d + 1) <$> depth path).
Proof.
  split; [done|]. split; [done|]. split; [exact depth_nonempty|].
  intros path segment Hne Hseg.
  rewrite (depth_nonempty path Hne), depth_nonempty.
  - rewrite !commas_app, Hseg. simpl. f_equal. lia.
  - by destruct path.
Qed.

End CollectionsProperties.

(** * What the service never does *)

Section Safety.
Context (C : Collaborators).
Variable users_service_read : Identity -> string -> exn + unit.
Variable groups_service_read : Identity -> string -> exn + unit.
Variable system_role_subject : string -> exn + unit.
Variable new_token : world -> string.
Variable url_for_verify : string -> string.

(** ** Computations that leave the store alone *)

Lemma keeps_store_ret {A : Type} (a : A) : keeps_store (ret a).
Proof. done. Qed.

Lemma keeps_store_raise {A : Type} (e : exn) : keeps_store (@raise A e).
Proof. done. Qed.

Lemma keeps_store_lift {A : Type} (r : exn + A) : keeps_store (lift r).
Proof. done. Qed.

Lemma keeps_store_bind {A B : Type} (m : M A) (k : A -> M B) :
  keeps_store m -> (∀ a, keeps_store (k a)) -> keeps_store (bind m k).
Proof.
  intros Hm Hk w. unfold bind. specialize (Hm w).
  destruct (m w) as [[e|a] w1]; simpl in *; subst; [done|]. apply Hk.
Qed.

Lemma keeps_store_resolve id_ : keeps_store (get_parent_and_record_or_draft id_).
Proof. intros w. apply get_parent_and_record_or_draft_state. Qed.

Lemma keeps_store_require identity action record :
  keeps_store (require_permission C identity action record).
Proof. intros w. unfold require_permission. by destruct (permits _ _ _ _ _). Qed.

Lemma keeps_store_parent_obj parent : keeps_store (parent_obj parent).
Proof. intros w. unfold parent_obj. by destruct (parents w !! parent). Qed.

Lemma keeps_store_pid_resolve id_ : keeps_store (pid_resolve id_).
Proof. intros w. unfold pid_resolve. by destruct (records w !! id_). Qed.

Lemma keeps_store_fetch_link parent link_id_ : keeps_store (fetch_link parent link_id_).
Proof.
  unfold fetch_link. apply keeps_store_bind; [apply keeps_store_parent_obj|]. intros p.
  destruct (index_of _ _); [|apply keeps_store_raise].
  apply keeps_store_bind; [apply keeps_store_lift|]. intros. apply keeps_store_ret.
Qed.

Lemma keeps_store_check_grant_subject identity grant :
  keeps_store (_check_grant_subject users_service_read groups_service_read
                 system_role_subject identity grant).
Proof. intros w. by rewrite check_grant_subject_run. Qed.

(** X23. The methods that only read never change the store, whatever they
    are given and whether they succeed or fail: resolving a record or draft,
    reading one or all secret links, reading one or all grants, and checking
    the subject of a grant. *)
Theorem reads_never_change_the_store identity id_ link_id_ (grant_id : Z) grant :
  keeps_store (get_parent_and_record_or_draft id_)
  ∧ keeps_store (read_secret_link C identity id_ link_id_)
  ∧ keeps_store (read_all_secret_links C identity id_)
  ∧ keeps_store (read_grant C identity id_ grant_id)
  ∧ keeps_store (read_all_grants C identity id_)
  ∧ keeps_store (_check_grant_subject users_service_read groups_service_read
                   system_role_subject identity grant).
Proof.
  split; [apply keeps_store_resolve|].
  split; [|split; [|split; [|split]]].
  - unfold read_secret_link. apply keeps_store_bind; [apply keeps_store_resolve|].
    intros [record parent]. apply keeps_store_bind; [apply keeps_store_require|]. intros _.
    apply keeps_store_bind; [apply keeps_store_fetch_link|]. intros. apply keeps_store_ret.
  - unfold read_all_secret_links. apply keeps_store_bind; [apply keeps_store_resolve|].
    intros [record parent]. apply keeps_store_bind; [apply keeps_store_require|]. intros _.
    apply keeps_store_bind; [apply keeps_store_parent_obj|]. intros. apply keeps_store_ret.
  - unfold read_grant. apply keeps_store_bind; [apply keeps_store_resolve|].
    intros [record parent]. apply keeps_store_bind; [apply keeps_store_require|]. intros _.
    apply keeps_store_bind; [apply keeps_store_parent_obj|]. intros p.
    destruct (negb _); [apply keeps_store_raise|apply keeps_store_lift].
  - unfold read_all_grants. apply keeps_store_bind; [apply keeps_store_resolve|].
    intros [record parent]. apply keeps_store_bind; [apply keeps_store_require|]. intros _.
    apply keeps_store_bind; [apply keeps_store_parent_obj|]. intros. apply keeps_store_ret.
  - apply keeps_store_check_grant_subject.
Qed.

(** ** The permission gate *)

(** A method gated by "manage" stops at the gate. *)
Lemma deny_gate {A : Type} w identity id_ record parent (k : RecordEntry -> nat -> M A) :
  get_parent_and_record_or_draft id_ w = (inr (record, parent), w) ->
  permits C w identity "manage" record = false ->
  bind (get_parent_and_record_or_draft id_)
    (fun rp => let '(record, parent) := rp in
               bind (require_permission C identity "manage" record)
                 (fun _ => k record parent)) w
  = (inl (PermissionDeniedError (Some "manage")), w).
Proof.
  intros Hr Hp. unfold bind at 1. rewrite Hr.
  unfold bind at 1, require_permission. by rewrite Hp.
Qed.

(** X24. Without the "manage" permission on the record nothing of its
    parent can be read or changed: every secret-link and grant method fails
    with PermissionDeniedError for "manage" and leaves the store as it is,
    whatever payload, link id or index it is given. *)
Theorem manage_permission_is_required w identity id_ record parent link_id_ (grant_id : Z)
  link_data grant_data (partial : bool) :
  get_parent_and_record_or_draft id_ w = (inr (record, parent), w) ->
  permits C w identity "manage" record = false ->
  let denied {A : Type} (m : M A) :=
    m w = (inl (PermissionDeniedError (Some "manage")), w) in
  denied (create_secret_link C identity id_ link_data)
  ∧ denied (read_all_secret_links C identity id_)
  ∧ denied (read_secret_link C identity id_ link_id_)
  ∧ denied (update_secret_link C identity id_ link_id_ link_data)
  ∧ denied (delete_secret_link C identity id_ link_id_)
  ∧ denied (create_grant C users_service_read groups_service_read system_role_subject
                         identity id_ grant_data)
  ∧ denied (read_grant C identity id_ grant_id)
  ∧ denied (update_grant C identity id_ grant_id grant_data partial)
  ∧ denied (read_all_grants C identity id_)
  ∧ denied (delete_grant C identity id_ grant_id).
Proof.
  intros Hr Hp denied. subst denied. cbv beta.
  unfold create_secret_link, read_all_secret_links, read_secret_link, update_secret_link,
    delete_secret_link, create_grant, read_grant, update_grant, read_all_grants, delete_grant.
  rewrite !(deny_gate _ _ _ _ _ _ Hr Hp). by repeat split.
Qed.

(** ** Relations every step of a computation respects *)

Section Preserves.
Context (R : relation world) `{!PreOrder R}.

Lemma preserves_store {A : Type} (m : M A) : keeps_store m -> preserves R m.
Proof. intros Hm w. by rewrite Hm. Qed.

Lemma preserves_ret {A : Type} (a : A) : preserves R (ret a).
Proof. by intros w. Qed.

Lemma preserves_raise {A : Type} (e : exn) : preserves R (@raise A e).
Proof. by intros w. Qed.

Lemma preserves_lift {A : Type} (r : exn + A) : preserves R (lift r).
Proof. by intros w. Qed.

Lemma preserves_get_world : preserves R get_world.
Proof. by intros w. Qed.

Lemma preserves_getkey {A : Type} key (o : option A) : preserves R (getkey key o).
Proof. intros w. by destruct o. Qed.

Lemma preserves_modify f : (∀ w, R w (f w)) -> preserves R (modify f).
Proof. intros Hf w. apply Hf. Qed.

Lemma preserves_utcnow : (∀ w, R w (set_ticks S w)) -> preserves R (utcnow C).
Proof. intros Hf w. apply Hf. Qed.

Lemma preserves_bind {A B : Type} (m : M A) (k : A -> M B) :
  preserves R m -> (∀ a, preserves R (k a)) -> preserves R (bind m k).
Proof.
  intros Hm Hk w. unfold bind. specialize (Hm w).
  destruct (m w) as [[e|a] w1]; simpl in *; [done|]. etrans; [done|apply Hk].
Qed.

Lemma preserves_try {A : Type} (m : M A) caught (handler : exn -> M A) :
  preserves R m -> (∀ e, preserves R (handler e)) -> preserves R (try_except m caught handler).
Proof.
  intros Hm Hh w. unfold try_except. specialize (Hm w).
  destruct (m w) as [[e|a] w1]; simpl in *; [|done].
  destruct (caught e); [|done]. etrans; [done|apply Hh].
Qed.

Lemma run_preserved {A : Type} (m : M A) w : preserves R m -> R w (snd (m w)).
Proof. intros Hm. apply Hm. Qed.

End Preserves.

#[local] Instance same_preorder {B : Type} (f : world -> B) : PreOrder (same f).
Proof.
  split.
  - by intros w.
  - intros w1 w2 w3 H12 H23. unfold same in *. congruence.
Qed.

(** Takes a computation apart down to the steps that write to the store and
    leaves it to [tac] to show that such a step respects the relation. *)
Ltac preserved tac :=
  repeat match goal with
  | |- preserves ?R _ =>
      first
        [ apply (preserves_ret R) | apply (preserves_raise R) | apply (preserves_lift R)
        | apply (preserves_get_world R) | apply (preserves_getkey R)
        | apply (preserves_store R);
            first [ apply keeps_store_resolve | apply keeps_store_require
                  | apply keeps_store_parent_obj | apply keeps_store_pid_resolve
                  | apply keeps_store_fetch_link | apply keeps_store_check_grant_subject ]
        | apply (preserves_utcnow R); intros; tac
        | apply (preserves_modify R); intros; tac
        | apply (preserves_bind R); [|intros ?]
        | apply (preserves_try R); [|intros ?]
        | match goal with
          | |- preserves _ (if ?b then _ else _) => destruct b
          | |- preserves _ (match ?o with _ => _ end) => destruct o
          end
        | progress unfold update_parent, register, commit_and_index, _index_related_records,
            _validate_secret_link_expires_at, links_create, grant_create, grants_create,
            requests_create, execute_action_submit, AccessRequestToken_get_by_token,
            AccessRequestToken_delete, AccessRequestToken_create ]
  end.

(** ** Failing calls register nothing *)

Lemma registers_bind {A B : Type} (m : M A) (k : A -> M B) :
  keeps_uow m -> (∀ a, registers_on_success_only (k a)) ->
  registers_on_success_only (bind m k).
Proof.
  intros Hm Hk w e w'. unfold bind. specialize (Hm w). unfold same in Hm.
  destruct (m w) as [[e1|a] w1]; simpl in *.
  - intros [= <- <-]. done.
  - intros Hrun. rewrite <- Hm. by eapply Hk.
Qed.

Lemma registers_raise {A : Type} (e : exn) : registers_on_success_only (@raise A e).
Proof. by intros w e' w' [= <- <-]. Qed.

(** The closing "Commit" and "Index" blocks cannot fail. *)
Lemma registers_commit {A : Type} record parent (a : A) :
  registers_on_success_only (commit_and_index record parent ;;; ret a).
Proof. intros w e w'. unfold bind at 1. rewrite commit_and_index_run. done. Qed.

Lemma registers_email {A : Type} op (a : A) :
  registers_on_success_only (register op ;;; ret a).
Proof. by intros w e w'. Qed.

Ltac registered :=
  repeat first
    [ apply registers_raise | apply registers_commit | apply registers_email
    | apply registers_bind;
        [solve [unfold keeps_uow; preserved ltac:(reflexivity)] | intros ?]
    | match goal with
      | |- registers_on_success_only (if ?b then _ else _) => destruct b
      | |- registers_on_success_only (match ?o with _ => _ end) => destruct o
      end ].

(** X25. A call that fails has registered nothing with the unit of work:
    in every method that changes a parent, and in the issue of a guest token,
    the commit, index and e-mail operations are registered after the last
    point at which the method can raise. *)
Theorem failing_calls_register_nothing identity id_ link_id_ (grant_id : Z) link_data
  grant_data (partial : bool) guest_data :
  registers_on_success_only (create_secret_link C identity id_ link_data)
  ∧ registers_on_success_only (update_secret_link C identity id_ link_id_ link_data)
  ∧ registers_on_success_only (delete_secret_link C identity id_ link_id_)
  ∧ registers_on_success_only
      (create_grant C users_service_read groups_service_read system_role_subject
                    identity id_ grant_data)
  ∧ registers_on_success_only (update_grant C identity id_ grant_id grant_data partial)
  ∧ registers_on_success_only (delete_grant C identity id_ grant_id)
  ∧ registers_on_success_only
      (create_guest_access_request_token C new_token url_for_verify identity id_ guest_data).
Proof.
  unfold create_secret_link, update_secret_link, delete_secret_link, create_grant,
    update_grant, delete_grant, create_guest_access_request_token.
  repeat split; registered.
Qed.

(** ** Links stay where they are and never expire later *)

Lemma never_later_refl link : never_later link link.
Proof. split; [done|]. intros old ->. exists old. split; [done|lia]. Qed.

Lemma never_later_trans link1 link2 link3 :
  never_later link1 link2 -> never_later link2 link3 -> never_later link1 link3.
Proof.
  intros [Hid12 H12] [Hid23 H23]. split; [congruence|].
  intros old Hold. destruct (H12 old Hold) as (mid & Hmid & Hle).
  destruct (H23 mid Hmid) as (new & Hnew & Hle'). exists new. split; [done|lia].
Qed.

#[local] Instance links_kept_preorder : PreOrder links_kept.
Proof.
  split.
  - intros w parent p idx link Hp Hl. exists p, link. by split; [|split; [|apply never_later_refl]].
  - intros w1 w2 w3 H12 H23 parent p idx link Hp Hl.
    destruct (H12 parent p idx link Hp Hl) as (p2 & link2 & Hp2 & Hl2 & Hn2).
    destruct (H23 parent p2 idx link2 Hp2 Hl2) as (p3 & link3 & Hp3 & Hl3 & Hn3).
    exists p3, link3. split; [done|]. split; [done|]. by eapply never_later_trans.
Qed.

Lemma links_kept_parents w w' : parents w' = parents w -> links_kept w w'.
Proof.
  intros Heq parent p idx link Hp Hl. exists p, link. rewrite Heq.
  by split; [|split; [|apply never_later_refl]].
Qed.

(** A change of one parent that keeps the links it has. *)
Lemma links_kept_alter (f : Parent -> Parent) parent w :
  (∀ p idx link, parents w !! parent = Some p -> links p !! idx = Some link ->
     ∃ link', links (f p) !! idx = Some link' ∧ never_later link link') ->
  links_kept w (set_parents (alter f parent) w).
Proof.
  intros Hf k p idx link Hp Hl. unfold set_parents. cbn [parents].
  destruct (decide (k = parent)) as [->|Hne].
  - destruct (Hf p idx link Hp Hl) as (link' & Hl' & Hn).
    exists (f p), link'. by rewrite lookup_alter_eq, Hp.
  - exists p, link. rewrite lookup_alter_ne by done.
    by split; [|split; [|apply never_later_refl]].
Qed.

Lemma links_kept_grants f parent w :
  links_kept w (set_parents (alter (set_grants f) parent) w).
Proof.
  apply links_kept_alter. intros p idx link _ Hl. exists link.
  split; [done|apply never_later_refl].
Qed.

Lemma links_kept_append link parent w :
  links_kept w (set_parents (alter (set_links (fun l => l ++ [link])) parent) w).
Proof.
  apply links_kept_alter. intros p idx link0 _ Hl. exists link0.
  split; [|apply never_later_refl]. unfold set_links. cbn [links].
  by apply lookup_app_l_Some.
Qed.

Lemma links_kept_update link link' idx parent p w :
  parents w !! parent = Some p -> links p !! idx = Some link -> never_later link link' ->
  links_kept w (set_parents (alter (set_links (fun l => <[idx := link']> l)) parent) w).
Proof.
  intros Hp Hl Hn. apply links_kept_alter. intros p0 idx0 link0 Hp0 Hl0.
  rewrite Hp in Hp0. injection Hp0 as <-. unfold set_links. cbn [links].
  destruct (decide (idx0 = idx)) as [->|Hne].
  - exists link'. rewrite Hl in Hl0. injection Hl0 as <-.
    split; [|done]. apply list_lookup_insert_eq. by eapply lookup_lt_Some.
  - exists link0. rewrite list_lookup_insert_ne by done.
    split; [done|apply never_later_refl].
Qed.

Ltac links_step :=
  first [ apply links_kept_parents; reflexivity
        | apply links_kept_grants
        | apply links_kept_append ].

(** The validation only reads the clock. *)
Lemma preserves_validate_parents value is_specified secret_link w :
  parents (snd (_validate_secret_link_expires_at C value is_specified secret_link w))
  = parents w.
Proof.
  revert w. change (preserves (same parents)
                      (_validate_secret_link_expires_at C value is_specified secret_link)).
  preserved ltac:(reflexivity).
Qed.

(** What the validation accepts for an update gives a link that is not later
    than the one it replaces. *)
Lemma validated_update_never_later link loaded value w w1 :
  _validate_secret_link_expires_at C (mjoin (d_expires_at loaded))
    (given (d_expires_at loaded)) (Some link) w = (inr value, w1) ->
  never_later link (updated_link link loaded value) ∧ parents w1 = parents w.
Proof.
  rewrite validate_update_spec. unfold never_later, updated_link. cbn [link_id expires_at].
  destruct (d_expires_at loaded) as [[d|]|]; cbv zeta.
  - destruct (_ <? _); [done|].
    destruct (expires_at link) as [old|] eqn:Hold.
    + destruct (Z.ltb_spec old (expiry_instant d)); [done|].
      destruct (_ <? _); [done|]. intros [= <- <-]. split; [|done]. split; [done|].
      intros ? [= <-]. by exists (expiry_instant d).
    + destruct (_ <? _); [done|]. intros [= <- <-]. done.
  - destruct (expires_at link) as [old|] eqn:Hold; [done|]. intros [= <- <-]. done.
  - intros [= <- <-]. split; [|done]. split; [done|]. intros old ->.
    exists old. split; [done|lia].
Qed.

(** An update either fails before it has touched the store, or it has found
    the record, the permission, the link and a loadable payload. *)
Lemma update_secret_link_cases w identity id_ link_id_ data :
  (∃ e, update_secret_link C identity id_ link_id_ data w = (inl e, w))
  ∨ (∃ record parent p idx link loaded,
       manages C w identity id_ record parent p
       ∧ has_link p link_id_ idx link
       ∧ schema_secret_link C data = inr loaded).
Proof.
  pose proof (get_parent_and_record_or_draft_state id_ w) as Hst.
  destruct (get_parent_and_record_or_draft id_ w) as [[e|[record parent]] w1] eqn:Hr;
    simpl in Hst; subst w1.
  { left. exists e. unfold update_secret_link, bind at 1. by rewrite Hr. }
  destruct (permits C w identity "manage" record) eqn:Hperm.
  2:{ left. eexists. unfold update_secret_link. by apply (deny_gate _ _ _ record parent). }
  destruct (parents w !! parent) as [p|] eqn:Hp.
  2:{ left. exists NoResultFound. unfold update_secret_link, bind at 1. rewrite Hr.
      unfold bind at 1, require_permission. rewrite Hperm.
      unfold bind at 1, fetch_link, bind at 1, parent_obj. by rewrite Hp. }
  assert (Hm : manages C w identity id_ record parent p) by done.
  destruct (index_of (link_id <$> links p) link_id_) as [idx|] eqn:Hidx.
  2:{ left. exists (LookupError link_id_). unfold update_secret_link.
      rewrite (enter_gate _ _ _ _ _ _ _ _ Hm). unfold bind at 1.
      erewrite fetch_link_unknown; [done|done|by apply index_of_None]. }
  destruct (index_of_Some _ _ _ Hidx) as [Hl _]. rewrite list_lookup_fmap in Hl.
  destruct (links p !! idx) as [link|] eqn:Hlink; [|done].
  assert (Hhas : has_link p link_id_ idx link) by done.
  destruct (schema_secret_link C data) as [e|loaded] eqn:Hs.
  - left. exists e. by eapply update_secret_link_schema_error.
  - right. by exists record, parent, p, idx, link, loaded.
Qed.

Lemma update_secret_link_keeps_links identity id_ link_id_ data :
  preserves links_kept (update_secret_link C identity id_ link_id_ data).
Proof.
  intros w.
  destruct (update_secret_link_cases w identity id_ link_id_ data)
    as [[e ->]|(record & parent & p & idx & link & loaded & Hm & Hl & Hs)]; [done|].
  rewrite (update_secret_link_run _ _ _ _ _ _ _ _ _ _ _ _ Hm Hl Hs).
  pose proof (preserves_validate_parents (mjoin (d_expires_at loaded))
                (given (d_expires_at loaded)) (Some link) w) as Hpar.
  destruct (_validate_secret_link_expires_at _ _ _ _ _) as [[e|value] w1] eqn:Hv.
  - by apply links_kept_parents.
  - destruct (validated_update_never_later _ _ _ _ _ Hv) as [Hn Hw1].
    destruct Hm as (_ & Hp & _). cbn [snd]. unfold after_update_link.
    etrans; [by apply links_kept_parents|].
    trans (set_parents
             (alter (set_links (fun l => <[idx := updated_link link loaded value]> l)) parent)
             w1); [|by apply links_kept_parents].
    eapply links_kept_update; [by rewrite Hw1|apply Hl|done].
Qed.

(** X26. In any sequence of calls of the service that does not delete a
    link, made by whoever and whether the calls succeed or fail, every
    secret link stays at its position under its id, a link that has an
    expiration always keeps one, and that expiration never moves to a later
    instant. *)
Theorem expirations_never_move_later (cs : list Call) w :
  links_kept w (after_calls C users_service_read groups_service_read system_role_subject
                  new_token url_for_verify cs w).
Proof.
  revert w. induction cs as [|c cs IH]; intros w; [done|].
  unfold after_calls. cbn [foldl]. etrans; [|apply IH].
  destruct c; cbn [after_call].
  - apply run_preserved. unfold create_secret_link. preserved links_step.
  - apply update_secret_link_keeps_links.
  - apply run_preserved. unfold create_grant. preserved links_step.
  - apply run_preserved. unfold update_grant. preserved links_step.
  - apply run_preserved. unfold delete_grant. preserved links_step.
  - apply run_preserved. unfold create_user_access_request. preserved links_step.
  - apply run_preserved. unfold create_guest_access_request_token. preserved links_step.
  - apply run_preserved. unfold create_guest_access_request, create_guest_access_request_over. preserved links_step.
Qed.

(** ** At most one open request *)

Lemma requests_sound_same w w' :
  requests w' = requests w -> records w' = records w ->
  requests_sound w -> requests_sound w'.
Proof.
  intros Hrq Hrc (Hn & Hr & Ho). unfold requests_sound, requests_numbered, records_by_pid,
    one_open_request. rewrite Hrq, Hrc. done.
Qed.

Lemma numbered_fresh w : requests_numbered w -> fresh_request_id w.
Proof.
  intros Hn r Hin Heq. apply list_elem_of_lookup in Hin as [i Hi].
  rewrite (Hn i r Hi) in Heq. apply (inj pretty) in Heq.
  apply lookup_lt_Some in Hi. lia.
Qed.

Lemma open_requests_length creator topic_ type_ rs :
  (length (open_requests creator topic_ type_ rs) <= length rs)%nat.
Proof.
  unfold open_requests.
  etrans; [apply length_filter|]. etrans; [apply length_filter|]. apply length_filter.
Qed.

(** One more request keeps the open requests apart if it is not open, or if
    its creator has no open request of its type on its topic. *)
Lemma one_open_add rs r :
  (∀ creator topic_ type_, (length (open_requests creator topic_ type_ rs) <= 1)%nat) ->
  (is_open r = true -> open_requests (created_by r) (topic r) (type_id r) rs = []) ->
  ∀ creator topic_ type_,
    (length (open_requests creator topic_ type_ (rs ++ [r])) <= 1)%nat.
Proof.
  intros Hone Hnew creator topic_ type_. rewrite open_requests_app, length_app.
  destruct (open_requests creator topic_ type_ [r]) as [|r' l] eqn:Hopen.
  - specialize (Hone creator topic_ type_). simpl. lia.
  - assert (Hin : r' ∈ open_requests creator topic_ type_ [r]) by (rewrite Hopen; left).
    apply elem_of_open_requests in Hin as (Hr' & Hc & Ht & _ & Hty & Hop).
    apply list_elem_of_singleton in Hr'. subst r'.
    specialize (Hnew Hop). rewrite Hc, Ht, Hty in Hnew. rewrite Hnew.
    pose proof (open_requests_length creator topic_ type_ [r]) as Hlen.
    rewrite Hopen in Hlen. simpl in *. lia.
Qed.

(** The request table after the requests service stored [r'] for a request
    created under the next number. *)
Lemma requests_sound_add w w' r' creator topic_ type_ :
  requests_sound w ->
  records w' = records w ->
  requests w' = requests w ++ [r'] ->
  request_id r' = pretty (length (requests w)) ->
  created_by r' = creator -> topic r' = topic_ -> type_id r' = type_ ->
  (is_open r' = true -> open_requests creator topic_ type_ (requests w) = []) ->
  requests_sound w'.
Proof.
  intros (Hn & Hr & Ho) Hrc Hrq Hid Hc Ht Hty Hnew.
  unfold requests_sound, requests_numbered, records_by_pid, one_open_request.
  rewrite Hrc, Hrq. split; [|split; [done|]].
  - intros i r Hi. destruct (decide (i < length (requests w))%nat) as [Hlt|Hge].
    + rewrite lookup_app_l in Hi by done. by apply Hn.
    + pose proof (lookup_lt_Some _ _ _ Hi) as Hlen. rewrite length_app in Hlen.
      simpl in Hlen. assert (i = length (requests w)) as -> by lia.
      rewrite lookup_app_r, Nat.sub_diag in Hi by lia. by injection Hi as <-.
  - apply one_open_add; [done|]. by rewrite Hc, Ht, Hty.
Qed.

Lemma insert_last {A : Type} (l : list A) (x y : A) :
  <[length l := y]> (l ++ [x]) = l ++ [y].
Proof. rewrite insert_app_r_alt by lia. by rewrite Nat.sub_diag. Qed.

(** A user access request either fails before it has touched the store, or
    it has found the record, the permissions and the parent. *)
Lemma create_user_access_request_cases w identity id_ message :
  (∃ e, create_user_access_request C identity id_ message w = (inl e, w))
  ∨ (∃ record p, may_request C w identity id_ record
                 ∧ parents w !! parent_key record = Some p).
Proof.
  unfold create_user_access_request, may_request.
  cbv [bind pid_resolve try_except require_permission ret raise get_world parent_obj
       requests_create modify].
  destruct (records w !! id_) as [record|] eqn:Hrec; [|left; by eexists].
  destruct (permits C w identity "read" record) eqn:Hread; [|left; by eexists].
  destruct (permits C w identity "read_files" record) eqn:Hfiles;
    cbn [negb is_PermissionDeniedError]; [left; by eexists|].
  destruct (parents w !! parent_key record) as [p|] eqn:Hp.
  - right. by exists record, p.
  - left. destruct (bool_decide _); cbn [negb]; cbv beta iota; [|by eexists].
    rewrite Hrec. cbv beta iota. rewrite Hp. by eexists.
Qed.

Lemma create_user_access_request_sound identity id_ message w :
  requests_sound w ->
  requests_sound (snd (create_user_access_request C identity id_ message w)).
Proof.
  intros Hsound.
  destruct (create_user_access_request_cases w identity id_ message)
    as [[e ->]|(record & p & Hmay & Hp)]; [done|].
  pose proof Hsound as (Hn & Hr & Ho).
  rewrite (create_user_access_request_run _ _ _ _ _ _ _ Hmay Hp (numbered_fresh _ Hn)).
  cbv zeta. destruct Hmay as (Hrec & _).
  destruct (bool_decide _) eqn:Hnone; [|done]. apply bool_decide_eq_true in Hnone.
  destruct (create_errors C _); cbn [snd].
  - eapply requests_sound_add; [done|done|done|done|done|done|done|done].
  - eapply (requests_sound_add _ _ _ (RefUser (identity_id identity)) id_
              (UserAccessRequest_type_id C)); [done|done|..].
    + cbn [requests set_requests]. apply insert_last.
    + done.
    + done.
    + cbn [topic submitted user_request]. by apply Hr.
    + done.
    + done.
Qed.

(** A guest access request either leaves requests and records as they are,
    or it has found a redeemable token, its record and parent, and no open
    request of the guest on the record. *)
Lemma create_guest_access_request_cases w identity token_ :
  (∃ outcome w', create_guest_access_request C identity token_ w = (outcome, w')
                 ∧ requests w' = requests w ∧ records w' = records w)
  ∨ (∃ t record p,
       provides_authenticated_user identity = false
       ∧ redeemable C w token_ = Some t
       ∧ records w !! record_pid t = Some record
       ∧ parents w !! parent_key record = Some p
       ∧ open_requests (RefEmail (email t)) (record_pid t) (GuestAccessRequest_type_id C)
                       (requests w) = []).
Proof.
  unfold create_guest_access_request, create_guest_access_request_over.
  destruct (provides_authenticated_user identity) eqn:Hguest;
    [left; by eexists _, _|].
  unfold bind at 1. rewrite get_by_token_run.
  destruct (redeemable C w token_) as [t|] eqn:Hsome; [|left; by eexists _, _].
  unfold bind at 1, pid_resolve. cbn [records set_ticks].
  destruct (records w !! record_pid t) as [record|] eqn:Hrec; [|left; by eexists _, _].
  unfold bind at 1, get_world. cbn [requests set_ticks].
  destruct (bool_decide _) eqn:Hnone; cbn [negb]; [|left; by eexists _, _].
  apply bool_decide_eq_true in Hnone.
  unfold bind at 1, parent_obj. cbn [parents set_ticks].
  destruct (parents w !! parent_key record) as [p|] eqn:Hp; [|left; by eexists _, _].
  right. by exists t, record, p.
Qed.

Lemma create_guest_access_request_sound identity token_ w :
  requests_sound w ->
  requests_sound (snd (create_guest_access_request C identity token_ w)).
Proof.
  intros Hsound.
  destruct (create_guest_access_request_cases w identity token_)
    as [(outcome & w' & -> & Hrq & Hrc)|(t & record & p & Hguest & Hsome & Hrec & Hp & Hnone)].
  { by eapply requests_sound_same. }
  pose proof Hsound as (Hn & Hr & Ho).
  rewrite (create_guest_access_request_run _ _ _ _ _ _ _ Hguest Hsome Hrec Hp Hnone).
  rewrite create_and_submit_run by (by apply numbered_fresh).
  cbv zeta. destruct (create_errors C _); cbn [snd].
  - eapply requests_sound_add; [done|done|done|done|done|done|done|done].
  - eapply (requests_sound_add _ _ _ (RefEmail (email t)) (record_pid t)
              (GuestAccessRequest_type_id C)); [done|done|..].
    + cbn [requests set_requests token_deleted set_tokens set_ticks]. apply insert_last.
    + done.
    + done.
    + cbn [topic submitted guest_request]. by apply Hr.
    + done.
    + done.
Qed.

(** X27. The service never opens a second request of a type by the same
    requester on the same record: in a store where the requests are numbered
    as the requests service numbers them, published records are filed under
    their pid and no creator has two open requests of one type on one topic,
    that is so again after any sequence of calls, by users and guests,
    succeeding or failing. *)
Theorem one_open_request_per_requester (cs : list Call) w :
  requests_sound w ->
  requests_sound (after_calls C users_service_read groups_service_read system_role_subject
                    new_token url_for_verify cs w).
Proof.
  revert w. induction cs as [|c cs IH]; intros w Hsound; [done|].
  unfold after_calls. cbn [foldl]. apply IH.
  assert (Hsame : ∀ {A : Type} (m : M A),
            preserves (same (fun w => (requests w, records w))) m ->
            requests_sound (snd (m w))).
  { intros A m Hm. specialize (Hm w). unfold same in Hm. injection Hm as Hrq Hrc.
    by eapply requests_sound_same. }
  destruct c; cbn [after_call].
  - apply Hsame. unfold create_secret_link. preserved ltac:(reflexivity).
  - apply Hsame. unfold update_secret_link. preserved ltac:(reflexivity).
  - apply Hsame. unfold create_grant. preserved ltac:(reflexivity).
  - apply Hsame. unfold update_grant. preserved ltac:(reflexivity).
  - apply Hsame. unfold delete_grant. preserved ltac:(reflexivity).
  - by apply create_user_access_request_sound.
  - apply Hsame. unfold create_guest_access_request_token. preserved ltac:(reflexivity).
  - by apply create_guest_access_request_sound.
Qed.

End Safety.

(** * The further properties on the concrete repository *)

Module ScenarioMore.
Import Demo DemoMore.

Ltac not_in_list :=
  cbn; repeat (apply not_elem_of_cons; split; [discriminate|]); apply not_elem_of_nil.

Lemma link_a : has_link p0 "a" 0 l1.
Proof. by split. Defined.

Lemma link_c : has_link p0 "c" 2 l3.
Proof. by split. Defined.

(** No link has the id "zz". *)
Lemma secret_link_lookup_witness :
  read_secret_link demo manager "r1" "zz" w0 = (inl (LookupError "zz"), w0).
Proof.
  destruct (secret_link_lookup demo w0 manager "r1" rec1 0%nat p0 "zz" (expires 300)
              Scenario.manager_manages) as [Hunknown _].
  apply Hunknown. not_in_list.
Defined.

(** Moving link "c" to 150 keeps three links. *)
Lemma update_secret_link_frame_witness :
  ∃ p', parents (snd (update_secret_link demo manager "r1" "c" (expires 150) w0)) !! 0%nat
        = Some p'
        ∧ length (links p') = 3%nat.
Proof.
  destruct (update_secret_link_frame demo w0 manager "r1" rec1 0%nat p0 "c" 2%nat l3
              (expires 150) (updated_link l3 (expires 150) (Some (naive 150)))
              (snd (update_secret_link demo manager "r1" "c" (expires 150) w0))
              Scenario.manager_manages link_c eq_refl)
    as (p' & Hp' & Hlen & _).
  by exists p'.
Defined.

(** An update with an empty permission and nothing else returns link "a". *)
Lemma update_secret_link_empty_payload_witness :
  fst (update_secret_link demo manager "r1" "a"
         (mk_LinkData None (Some "") None None None) w0) = inr l1.
Proof.
  destruct (update_secret_link_empty_payload demo w0 manager "r1" rec1 0%nat p0 "a" 0%nat l1
              (mk_LinkData None (Some "") None None None)
              (mk_LinkData None (Some "") None None None)
              Scenario.manager_manages link_a eq_refl eq_refl (or_intror eq_refl) eq_refl)
    as (w' & Hrun & _).
  by rewrite Hrun.
Defined.

(** 150 is after both clock readings (100, 101) and before 200. *)
Lemma update_secret_link_accepted_iff_witness :
  ∃ link' w', update_secret_link demo manager "r1" "c" (expires 150) w0 = (inr link', w').
Proof.
  apply (update_secret_link_accepted_iff demo w0 manager "r1" rec1 0%nat p0 "c" 2%nat l3
           (expires 150) (expires 150) Scenario.manager_manages link_c eq_refl).
  cbn. split; [unfold expiry_instant; cbn; lia|].
  split; [unfold expiry_instant; cbn; lia|].
  intros old [= <-]. unfold expiry_instant. cbn. lia.
Defined.

(** A view link until 300 is created and listed last. *)
Lemma create_secret_link_appends_witness :
  ∃ link w', create_secret_link demo manager "r1" (view_until 300) w0 = (inr link, w')
             ∧ read_all_secret_links demo manager "r1" w' = (inr [l1; l2; l3; link], w').
Proof.
  destruct (create_secret_link_appends demo w0 manager "r1" rec1 0%nat p0
              (view_until 300) (view_until 300) "view" Scenario.manager_manages
              eq_refl eq_refl)
    as (link & w' & Hrun & _ & _ & _ & _ & _ & Hread).
  - apply elem_of_cons. by left.
  - intros d [= <-]. unfold expiry_instant. cbn. lia.
  - exists link, w'. split; [exact Hrun|]. apply Hread.
    injection Hrun as _ <-. reflexivity.
Defined.

(** Deleting link "a" leaves "b" and "c". *)
Lemma delete_secret_link_removes_witness :
  read_all_secret_links demo manager "r1"
    (snd (delete_secret_link demo manager "r1" "a" w0))
  = (inr [l2; l3], snd (delete_secret_link demo manager "r1" "a" w0)).
Proof.
  destruct (delete_secret_link_removes demo w0 manager "r1" rec1 0%nat p0 "a" 0%nat l1
              Scenario.manager_manages link_a eq_refl)
    as (_ & _ & Hall & _).
  exact Hall.
Defined.

(** User 9 is unknown to the users service. *)
Lemma create_grant_checks_subject_witness :
  fst (create_grant demo users_read groups_read system_role manager "r1"
         (grant_data "user" "9" "view") w0)
  = inl (ValidationError msg_subject "subject.id").
Proof.
  destruct (create_grant_checks_subject demo users_read groups_read system_role w0 manager
              "r1" rec1 0%nat p0 (grant_data "user" "9" "view")
              (grant_data "user" "9" "view") "user" "9" "view" (inl (LookupError "9"))
              Scenario.manager_manages eq_refl eq_refl eq_refl eq_refl)
    as [_ Hfail].
  destruct (Hfail (LookupError "9") eq_refl) as [Hmasked _].
  by destruct (Hmasked eq_refl).
Defined.

(** A full update without "origin". *)
Lemma update_grant_subject_error_witness :
  update_grant demo manager "r1" 0 (grant_data "user" "7" "edit") false w0
  = (inl (ValidationError msg_subject "subject.id"), w0).
Proof.
  apply (update_grant_subject_error demo w0 manager "r1" rec1 0%nat p0 0 0%nat g1
           (grant_data "user" "7" "edit") false (grant_data "user" "7" "edit")
           Scenario.manager_manages eq_refl eq_refl eq_refl).
  by left.
Defined.

(** A partial update of the first grant keeps two grants. *)
Lemma update_grant_frame_witness :
  ∃ k p', parents (snd (update_grant demo manager "r1" 0 (only_permission "manage") true w0))
            !! 0%nat = Some p'
          ∧ length (grants p') = 2%nat
          ∧ grants p' !! k = Some (mk_Grant "user" "7" "manage" None).
Proof.
  destruct (update_grant_frame demo w0 manager "r1" rec1 0%nat p0 0 (only_permission "manage")
              true (mk_Grant "user" "7" "manage" None)
              (snd (update_grant demo manager "r1" 0 (only_permission "manage") true w0))
              Scenario.manager_manages eq_refl)
    as (k & p' & _ & Hp' & Hlen & Hk & _).
  by exists k, p'.
Defined.

(** Only the permission of the first grant changes. *)
Lemma update_grant_partial_merges_witness :
  fst (update_grant demo manager "r1" 0 (only_permission "manage") true w0)
  = inr (mk_Grant "user" "7" "manage" None).
Proof.
  destruct (update_grant_partial_merges demo w0 manager "r1" rec1 0%nat p0 0 0%nat g1
              (only_permission "manage") Scenario.manager_manages eq_refl eq_refl eq_refl
              eq_refl)
    as (w' & Hrun & _).
  by rewrite Hrun.
Defined.

(** After deleting the first grant, index 0 reads what index 1 read. *)
Lemma delete_grant_shifts_witness :
  read_all_grants demo manager "r1" (snd (delete_grant demo manager "r1" 0 w0))
  = (inr [g2], snd (delete_grant demo manager "r1" 0 w0)).
Proof.
  destruct (delete_grant_shifts demo w0 manager "r1" rec1 0%nat p0 0
              Scenario.manager_manages)
    as (Hall & _); [cbn; lia | reflexivity |].
  exact Hall.
Defined.

(** The reader's request is submitted with the message as comment. *)
Lemma user_access_request_submission_witness :
  ∃ r w', create_user_access_request demo reader "r1" None w0 = (inr r, w')
          ∧ status r = Submitted ∧ comment r = Some "".
Proof.
  destruct (user_access_request_submission demo w0 reader "r1" rec1 p0 None
              Scenario.reader_may_request eq_refl Scenario.w0_fresh_request_id eq_refl)
    as (r & w' & Hrun & _ & _ & _ & _ & Hsub & _).
  destruct (Hsub eq_refl) as [Hstatus Hcomment].
  by exists r, w'.
Defined.

(** With the guest's request open, the token is refused and kept. *)
Lemma guest_duplicate_keeps_token_witness :
  fst (create_guest_access_request demo guest "tok" w_dup)
  = inl (DuplicateAccessRequestError ["1"])
  ∧ tokens (snd (create_guest_access_request demo guest "tok" w_dup)) = [tok].
Proof.
  destruct (guest_duplicate_keeps_token demo w_dup guest "tok" tok eq_refl eq_refl)
    as [_ Hdup].
  destruct (Hdup rec1 eq_refl) as (Hfst & Htok & _); [discriminate|].
  split; [exact Hfst | exact Htok].
Defined.

(** A token issued for the new guest is redeemed at the next clock reading. *)
Lemma guest_token_round_trip_witness :
  ∃ r w2,
    create_guest_access_request demo guest "t1"
      (snd (create_guest_access_request_token demo token_string verify_url guest "r1"
              guest_data w0))
    = (inr (Some r), w2)
    ∧ created_by r = RefEmail "new@example.org"
    ∧ topic r = "r1".
Proof.
  destruct (guest_token_round_trip demo token_string verify_url w0 guest "r1" guest_data
              rec1 p0 "new@example.org" "New Guest" (Some "hello")
              (mk_AccessRequestToken "t1" "new@example.org" "New Guest" (Some "hello") "r1"
                                     100 six_hours)
              eq_refl eq_refl eq_refl eq_refl eq_refl eq_refl eq_refl eq_refl eq_refl
              Scenario.w0_fresh_request_id)
    as (r & w2 & Hrun & _ & Hby & Htopic & _).
  by exists r, w2.
Defined.

(** The reader may not manage record "r1". *)
Lemma manage_permission_is_required_witness :
  delete_grant demo reader "r1" 0 w0 = (inl (PermissionDeniedError (Some "manage")), w0)
  ∧ read_all_secret_links demo reader "r1" w0
    = (inl (PermissionDeniedError (Some "manage")), w0).
Proof.
  pose proof (manage_permission_is_required demo users_read groups_read system_role w0
                reader "r1" rec1 0%nat "a" 0 (expires 150) (grant_data "user" "7" "view")
                false eq_refl eq_refl) as Hdenied.
  cbv zeta in Hdenied.
  destruct Hdenied as (_ & Hlinks & _ & _ & _ & _ & _ & _ & _ & Hdelete).
  by split.
Defined.

Lemma w0_requests_sound : requests_sound w0.
Proof.
  split; [|split].
  - intros [|i] r; [by intros [= <-]|done].
  - intros id_ record Hrec. unfold w0 in Hrec. cbn [records] in Hrec.
    apply lookup_singleton_Some in Hrec as [<- <-]. done.
  - intros creator topic_ type_. apply (open_requests_length creator topic_ type_ [req0]).
Defined.

(** The reader asks twice and the guest redeems a token: afterwards the
    reader has at most one open request on "r1". *)
Lemma one_open_request_per_requester_witness :
  (length (open_requests (RefUser "2") "r1" "user-access-request"
             (requests (after_calls demo users_read groups_read system_role token_string
                          verify_url
                          [CreateUserAccessRequest reader "r1" None;
                           CreateUserAccessRequest reader "r1" (Some "again");
                           CreateGuestAccessRequest guest "tok"] w0))) <= 1)%nat.
Proof.
  apply (one_open_request_per_requester demo users_read groups_read system_role token_string
           verify_url
           [CreateUserAccessRequest reader "r1" None;
            CreateUserAccessRequest reader "r1" (Some "again");
            CreateGuestAccessRequest guest "tok"] w0 w0_requests_sound).
Defined.

End ScenarioMore.
